(** * The archive metadata pipeline of [src/file_extractor.py]

    A shallow embedding of the filename parser ([parse_archive_filename]),
    of the record ([ArchiveInfo], [to_dict]) and of the JSON store
    ([save_archive_info], [_save_archive_info_dict]), with the properties
    the specification states about them.

    Python library calls are modelled by their documented behaviour:
    - [re.match] by a backtracking matcher; [\d] matches every Unicode
      decimal digit and [$] also matches before a final newline;
    - [datetime.strptime] by the pattern [_strptime] makes of "%Y%m%d",
      [int] and the check of the [date] constructor; [strftime] as CPython
      3.11 computes it with the C library of Linux, where %Y is the year
      without leading zeros;
    - the store file by what [json.load] makes of it: nothing, bytes
      that are not UTF-8, text that is no JSON, a JSON document that the
      decoder gives up on (an integer too long, nesting too deep), or
      the value of a JSON document ([json.load] returns what [json.dump]
      wrote);
    - what the platform may refuse (making the directory, opening the
      file, completing the write) by the [env] of each call.
    Logging is not modelled: it neither raises nor touches the store. *)

From Stdlib Require Import NArith ZArith Bool Ascii String List Lia.
From stdpp Require Import base list gmap.

Local Open Scope N_scope.
Local Open Scope list_scope.

(** ** Python strings *)

(** A Python [str] is a sequence of Unicode code points. *)
Definition str : Type := list N.

(** An ASCII literal of the source, as a [str]. *)
Definition lit (x : string) : str := map N_of_ascii (list_ascii_of_string x).

Notation "« x »" := (lit x) (at level 0, x at level 0, format "« x »").

Module Unicode.

(** The decimal digits of Unicode (category Nd) come in runs of ten
    consecutive code points, worth 0 to 9; this is the first code point
    of each run (Unicode 14.0).  The first run is ASCII '0'..'9'. *)
Definition decimal_runs : list N :=
  [48; 1632; 1776; 1984; 2406; 2534; 2662; 2790; 2918; 3046; 3174; 3302;
   3430; 3558; 3664; 3792; 3872; 4160; 4240; 6112; 6160; 6470; 6608; 6784;
   6800; 6992; 7088; 7232; 7248; 42528; 43216; 43264; 43472; 43504; 43600;
   44016; 65296; 66720; 68912; 69734; 69872; 69942; 70096; 70384; 70736;
   70864; 71248; 71360; 71472; 71904; 72016; 72784; 73040; 73120; 92768;
   92864; 93008; 120782; 120792; 120802; 120812; 120822; 123200; 123632;
   125264; 130032].

Definition in_run (c b : N) : bool := (b <=? c) && (c <? b + 10).

(** The value of a decimal digit, [None] for any other character. *)
Definition decimal_value (c : N) : option N :=
  match find (in_run c) decimal_runs with
  | Some b => Some (c - b)
  | None => None
  end.

Definition is_decimal (c : N) : bool :=
  match decimal_value c with Some _ => true | None => false end.

(** [int(s)] on the strings the pipeline gives it: decimal digits,
    possibly after blanks; [None] stands for ValueError. *)
Fixpoint int_from (acc : N) (s : str) : option N :=
  match s with
  | [] => Some acc
  | c :: s' =>
      match decimal_value c with
      | Some v => int_from (10 * acc + v) s'
      | None => None
      end
  end.

Fixpoint int (s : str) : option N :=
  match s with
  | [] => None
  | c :: s' => if c =? 32 then int s' else int_from 0 s
  end.

End Unicode.

(** ** Regular expressions, as [re.match] runs them *)

Module Re.

Inductive regex : Type :=
| Eps                              (* the empty pattern *)
| Chr (c : N)                      (* a literal character *)
| Cls (p : N -> bool)              (* a character class *)
| Cat (r1 r2 : regex)              (* r1 r2 *)
| Alt (r1 r2 : regex)              (* r1|r2, r1 tried first *)
| Plus (p : N -> bool)             (* class+, greedy *)
| Grp (r : regex)                  (* a capturing group *)
| Eol.                             (* $ without re.MULTILINE *)

(** Character classes of the patterns at hand. *)
Definition digit : N -> bool := Unicode.is_decimal.            (* \d *)
Definition range (lo hi : N) (c : N) : bool := (lo <=? c) && (c <=? hi).
Definition other_than (x : N) (c : N) : bool := negb (c =? x). (* [^x] *)

Fixpoint Str (l : str) : regex :=
  match l with
  | [] => Eps
  | c :: l' => Cat (Chr c) (Str l')
  end.

Fixpoint Rep (n : nat) (r : regex) : regex :=                  (* r{n} *)
  match n with
  | O => Eps
  | S n' => Cat r (Rep n' r)
  end.

(** Where [$] matches: at the end of the string, and just before a
    newline that ends it. *)
Definition at_end (s : str) : bool :=
  match s with
  | [] => true
  | [c] => c =? 10
  | _ => false
  end.

(** Greedy [class+]: take as many characters as possible, and give one
    back at a time while the rest of the pattern fails. *)
Fixpoint plus_loop {R} (p : N -> bool) (s : str) (k : str -> option R)
  : option R :=
  match s with
  | [] => None
  | c :: s' =>
      if p c then
        match plus_loop p s' k with
        | Some v => Some v
        | None => k s'
        end
      else None
  end.

(** Backtracking matcher in continuation-passing style: [k] is the rest
    of the pattern, [g] the groups closed so far.  The first successful
    alternative wins, as in Python. *)
Fixpoint exec {R} (r : regex) (s : str) (g : list str)
    (k : str -> list str -> option R) : option R :=
  match r with
  | Eps => k s g
  | Chr c =>
      match s with
      | x :: s' => if x =? c then k s' g else None
      | [] => None
      end
  | Cls p =>
      match s with
      | x :: s' => if p x then k s' g else None
      | [] => None
      end
  | Cat r1 r2 => exec r1 s g (fun s' g' => exec r2 s' g' k)
  | Alt r1 r2 =>
      match exec r1 s g k with
      | Some v => Some v
      | None => exec r2 s g k
      end
  | Plus p => plus_loop p s (fun s' => k s' g)
  | Grp r1 =>
      exec r1 s g
        (fun s' g' => k s' (g' ++ [take (length s - length s') s]))
  | Eol => if at_end s then k s g else None
  end.

(** [re.match(r, s)]: the groups and what is left of [s] after the
    match, which starts at position 0 (so a leading [^] adds nothing). *)
Definition rmatch (r : regex) (s : str) : option (list str * str) :=
  exec r s [] (fun s' g => Some (g, s')).

(** What a pattern can match, whatever the order of the attempts:
    [matches r xs rest caps] when [r] matches [xs] in front of [rest]
    and its groups capture [caps]. *)
Inductive matches : regex -> str -> str -> list str -> Prop :=
| M_Eps rest : matches Eps [] rest []
| M_Chr c rest : matches (Chr c) [c] rest []
| M_Cls p c rest : p c = true -> matches (Cls p) [c] rest []
| M_Cat r1 r2 xs ys rest c1 c2 :
    matches r1 xs (ys ++ rest) c1 -> matches r2 ys rest c2 ->
    matches (Cat r1 r2) (xs ++ ys) rest (c1 ++ c2)
| M_Alt_l r1 r2 xs rest c : matches r1 xs rest c -> matches (Alt r1 r2) xs rest c
| M_Alt_r r1 r2 xs rest c : matches r2 xs rest c -> matches (Alt r1 r2) xs rest c
| M_Plus p xs rest :
    xs <> [] -> Forall (fun c => p c = true) xs -> matches (Plus p) xs rest []
| M_Grp r xs rest c : matches r xs rest c -> matches (Grp r) xs rest (c ++ [xs])
| M_Eol rest : rest = [] \/ rest = [10] -> matches Eol [] rest [].

End Re.

(** ** [datetime] *)

Module Datetime.

Import Re.

(** The pattern [_strptime] compiles the format "%Y%m%d" to:
    (?P<Y>\d\d\d\d)(?P<m>1[0-2]|0[1-9]|[1-9])
    (?P<d>3[0-1]|[1-2]\d|0[1-9]|[1-9]| [1-9]) *)
Definition year_regex : regex := Rep 4 (Cls digit).

Definition month_regex : regex :=
  Alt (Cat (Chr 49) (Cls (range 48 50)))
 (Alt (Cat (Chr 48) (Cls (range 49 57)))
      (Cls (range 49 57))).

Definition day_regex : regex :=
  Alt (Cat (Chr 51) (Cls (range 48 49)))
 (Alt (Cat (Cls (range 49 50)) (Cls digit))
 (Alt (Cat (Chr 48) (Cls (range 49 57)))
 (Alt (Cls (range 49 57))
      (Cat (Chr 32) (Cls (range 49 57)))))).

Definition format_regex : regex :=
  Cat (Grp year_regex) (Cat (Grp month_regex) (Grp day_regex)).

Record date : Type := Date { year : N; month : N; day : N }.

Definition is_leap (y : N) : bool :=
  (y mod 4 =? 0) && (negb (y mod 100 =? 0) || (y mod 400 =? 0)).

Definition days_in_month (y m : N) : N :=
  if m =? 2 then (if is_leap y then 29 else 28)
  else if (m =? 4) || (m =? 6) || (m =? 9) || (m =? 11) then 30
  else 31.

(** The check of the [date] constructor: MINYEAR = 1, MAXYEAR = 9999. *)
Definition valid_date (y m d : N) : bool :=
  (1 <=? y) && (y <=? 9999) && (1 <=? m) && (m <=? 12) &&
  (1 <=? d) && (d <=? days_in_month y m).

(** [datetime.strptime(s, "%Y%m%d")]; [None] stands for ValueError:
    the string does not match, unconverted data remains, or the date
    does not exist.  (The time of day is midnight and is left out.) *)
Definition strptime (s : str) : option date :=
  match rmatch format_regex s with
  | Some ([Y; m; d], []) =>
      match Unicode.int Y, Unicode.int m, Unicode.int d with
      | Some y, Some mo, Some da =>
          if valid_date y mo da then Some (Date y mo da) else None
      | _, _, _ => None
      end
  | _ => None
  end.

(** [n] in decimal on [w] digits, zero-padded (the low [w] digits). *)
Fixpoint zero_padded (w : nat) (n : N) : str :=
  match w with
  | O => []
  | S w' => zero_padded w' (n / 10) ++ [48 + n mod 10]
  end.

(** [n] in decimal without leading zeros, for [n] below 10000, as the
    year of a [date] is. *)
Definition unpadded (n : N) : str :=
  if n <? 10 then zero_padded 1 n
  else if n <? 100 then zero_padded 2 n
  else if n <? 1000 then zero_padded 3 n
  else zero_padded 4 n.

(** [strftime("%Y-%m-%d")], as CPython 3.11 computes it through the C
    library of Linux: %Y is the year in decimal, with nothing put before
    a year below 1000 ('999-01-01'); the month and the day have two
    digits. *)
Definition strftime (d : date) : str :=
  unpadded (year d) ++ [45] ++ zero_padded 2 (month d) ++ [45]
  ++ zero_padded 2 (day d).

End Datetime.

(** ** JSON values, as [json.load] returns them *)

Module Json.

Local Set Warnings "-register-all".

(** A number, as [json.load] returns it: a Python int, or a float,
    which is plus or minus [m] times two to the power [e], an infinity
    or a NaN. *)
Inductive number : Type :=
| Int (z : Z)
| Float (negative : bool) (m : N) (e : Z)
| Inf (negative : bool)
| NaN.

Inductive json : Type :=
| JNull
| JBool (b : bool)
| JNum (n : number)
| JStr (s : str)
| JArr (items : list json)          (* a Python list *)
| JObj (fields : list (str * json)). (* a Python dict: distinct keys, in
                                       insertion order *)

Definition dict : Type := list (str * json).

(** [d.get(key)]: [None] when the key is absent. *)
Fixpoint dict_get (key : str) (d : dict) : option json :=
  match d with
  | [] => None
  | (k, v) :: d' => if bool_decide (k = key) then Some v else dict_get key d'
  end.

(** [d[key] = v]: an existing key keeps its place, a new one goes last. *)
Fixpoint dict_set (key : str) (v : json) (d : dict) : dict :=
  match d with
  | [] => [(key, v)]
  | (k, w) :: d' =>
      if bool_decide (k = key) then (k, v) :: d'
      else (k, w) :: dict_set key v d'
  end.

(** [x == s] for a value [x] that [dict.get] returned and a [str] [s]. *)
Definition eq_str (x : option json) (s : str) : bool :=
  match x with
  | Some (JStr t) => bool_decide (t = s)
  | _ => false
  end.

(** Plus or minus [m] times two to the power [e - floor]. *)
Definition scaled (negative : bool) (m : N) (e floor : Z) : Z :=
  let v := Z.shiftl (Z.of_N m) (e - floor) in
  if negative then (- v)%Z else v.

(** [x == y] on numbers: by value, an int and a float being compared
    exactly; a NaN equals nothing. *)
Definition number_eq (x y : number) : bool :=
  match x, y with
  | Int a, Int b => (a =? b)%Z
  | Int a, Float s m e | Float s m e, Int a =>
      let floor := Z.min e 0 in
      (Z.shiftl a (0 - floor) =? scaled s m e floor)%Z
  | Float s m e, Float s' m' e' =>
      let floor := Z.min e e' in
      (scaled s m e floor =? scaled s' m' e' floor)%Z
  | Inf s, Inf s' => Bool.eqb s s'
  | _, _ => false
  end.

(** [x == y] on two values: [True] and [False] are the ints 1 and 0,
    lists are compared element by element, and two dicts are equal when
    they have as many keys and equal values under each. *)
Fixpoint py_eq (x y : json) : bool :=
  match x, y with
  | JNull, JNull => true
  | JBool b, JBool c => Bool.eqb b c
  | JBool b, JNum n | JNum n, JBool b =>
      number_eq (Int (if b then 1 else 0)) n
  | JNum m, JNum n => number_eq m n
  | JStr s, JStr t => bool_decide (s = t)
  | JArr xs, JArr ys =>
      (fix each (xs ys : list json) : bool :=
         match xs, ys with
         | [], [] => true
         | x' :: xs', y' :: ys' => py_eq x' y' && each xs' ys'
         | _, _ => false
         end) xs ys
  | JObj d, JObj d' =>
      (length d =? length d')%nat &&
      (fix each (d : list (str * json)) : bool :=
         match d with
         | [] => true
         | (k, x') :: rest =>
             match dict_get k d' with
             | Some y' => py_eq x' y'
             | None => false
             end && each rest
         end) d
  | _, _ => false
  end.

End Json.

(** ** The record and the filename parser *)

Import Re Datetime Json.

Record ArchiveInfo : Type := {
  filename : str;
  date_str : str;
  post_id : str;
  floor_number : str;
  author_id : str;
  encryption_method : str
}.

(** The [date] property; [None] stands for the ValueError of [strptime]. *)
Definition date_of (a : ArchiveInfo) : option date := strptime (date_str a).

Definition forum_url (a : ArchiveInfo) : str :=
  «"https://cc98.org/"» ++ post_id a ++ «"/"».

(** The two characters of the anonymity prefix, U+533F U+540D. *)
Definition anonymous : str := [21311; 21517].

Definition password_description (a : ArchiveInfo) : str :=
  forum_url a ++ [32; 20013; 32] ++ floor_number a ++ [27004; 32]
  ++ anonymous ++ author_id a ++ [32; 21457; 34920; 20869; 23481; 30340]
  ++ encryption_method a ++ [21704; 24076].

(** [to_dict]; [None] when the [date] property raises. *)
Definition to_dict (a : ArchiveInfo) : option dict :=
  match date_of a with
  | None => None
  | Some d =>
      Some [ («"filename"», JStr (filename a));
             («"date_str"», JStr (date_str a));
             («"date_formatted"», JStr (strftime d));
             («"post_id"», JStr (post_id a));
             («"floor_number"», JStr (floor_number a));
             («"author_id"», JStr (anonymous ++ author_id a));
             («"encryption_method"», JStr (encryption_method a));
             («"forum_url"», JStr (forum_url a));
             («"password_description"», JStr (password_description a)) ]
  end.

(** ^chalaoshi_csv(\d{8})_(\d+)_(\d+)_([^_]+)_([^.]+)\.zip$ *)
Definition pattern : regex :=
  Cat (Str «"chalaoshi_csv"»)
 (Cat (Grp (Rep 8 (Cls digit)))
 (Cat (Chr 95)
 (Cat (Grp (Plus digit))
 (Cat (Chr 95)
 (Cat (Grp (Plus digit))
 (Cat (Chr 95)
 (Cat (Grp (Plus (other_than 95)))
 (Cat (Chr 95)
 (Cat (Grp (Plus (other_than 46)))
 (Cat (Str «".zip"») Eol)))))))))).

(** [parse_archive_filename]: [None] is the source's [None]; the function
    is total, so it raises on no input. *)
Definition parse_archive_filename (name : str) : option ArchiveInfo :=
  match rmatch pattern name with
  | Some ([d; p; f; a; e], _) =>
      match strptime d with
      | Some _ =>
          Some {| filename := name; date_str := d; post_id := p;
                  floor_number := f; author_id := a;
                  encryption_method := e |}
      | None => None
      end
  | _ => None
  end.

(** ** The store file and the calls that touch it *)

Inductive exn : Type :=
| OSError | JSONDecodeError | UnicodeDecodeError
| ValueError | TypeError | AttributeError | KeyError | RecursionError.

(** What is at the output path. *)
Inductive file : Type :=
| Missing                 (* nothing: [exists()] is false *)
| Undecodable             (* bytes that are not UTF-8 *)
| Malformed               (* text that is no JSON document, a truncated
                             document included *)
| Oversized               (* a JSON document with an integer of more
                             than 4300 digits, which [int] refuses *)
| Overnested              (* a JSON document nested deeper than the
                             decoder can follow *)
| Document (v : json).    (* a JSON document that [json.load] returns
                             [v] for *)

(** What the platform does to a write. *)
Inductive fault : Type :=
| NoFault
| OpenFails               (* [open(..., 'w')] raises: nothing is touched *)
| DumpFails.              (* [json.dump] raises after the file was opened
                             and truncated: disk full, a string that
                             cannot be encoded *)

(** What one call meets outside the program. *)
Record env : Type := {
  mkdir_fails : bool;     (* [Path.mkdir] raises *)
  read_fails : bool;      (* [open(..., 'r')] raises *)
  write_fault : fault;
  now : str               (* [datetime.now().isoformat()] *)
}.

(** Code that may raise and may change the file. *)
Definition io (A : Type) : Type := file -> (exn + A) * file.

#[global] Instance io_ret : MRet io := fun A x disk => (inr x, disk).

#[global] Instance io_bind : MBind io := fun A B k m disk =>
  match m disk with
  | (inr x, disk') => k x disk'
  | (inl e, disk') => (inl e, disk')
  end.

Definition lift {A} (x : exn + A) : io A := fun disk => (x, disk).

(** [try: m except (the exceptions of [caught]): h] *)
Definition try_except {A} (m : io A) (caught : exn -> bool) (h : io A)
  : io A := fun disk =>
  match m disk with
  | (inl e, disk') => if caught e then h disk' else (inl e, disk')
  | r => r
  end.

Definition path_exists : io bool := fun disk =>
  (inr (match disk with Missing => false | _ => true end), disk).

(** [with open(path, 'r', encoding='utf-8') as f: json.load(f)] *)
Definition read_json (e : env) : io json := fun disk =>
  if read_fails e then (inl OSError, disk)
  else match disk with
       | Missing => (inl OSError, disk)
       | Undecodable => (inl UnicodeDecodeError, disk)
       | Malformed => (inl JSONDecodeError, disk)
       | Oversized => (inl ValueError, disk)
       | Overnested => (inl RecursionError, disk)
       | Document v => (inr v, disk)
       end.

(** [with open(path, 'w', encoding='utf-8') as f: json.dump(v, f, ...)] *)
Definition write_json (e : env) (v : json) : io unit := fun disk =>
  match write_fault e with
  | NoFault => (inr tt, Document v)
  | OpenFails => (inl OSError, disk)
  | DumpFails => (inl OSError, Malformed)
  end.

(** [except (json.JSONDecodeError, IOError)] *)
Definition decode_or_io (e : exn) : bool :=
  match e with JSONDecodeError | OSError => true | _ => false end.

(** Lines 176-183 and 411-417: the existing data, [[]] by default. *)
Definition load_existing (e : env) : io json :=
  present ← path_exists;
  if present : bool
  then try_except (read_json e) decode_or_io (mret (JArr []))
  else mret (JArr []).

(** The loop body on one element: [record.get('filename') == filename];
    only a dict has [get]. *)
Definition names (name : str) (record : json) : exn + bool :=
  match record with
  | JObj d => inr (eq_str (dict_get «"filename"» d) name)
  | _ => inl AttributeError
  end.

(** [for i, record in enumerate(items): if ...: found = i; break] *)
Fixpoint scan (name : str) (items : list json) (i : nat) : exn + option nat :=
  match items with
  | [] => inr None
  | record :: rest =>
      match names name record with
      | inl e => inl e
      | inr true => inr (Some i)
      | inr false => scan name rest (S i)
      end
  end.

(** The loop over whatever [json.load] returned: a list gives its
    elements; a dict or a str gives strings, which have no [get]; the
    rest cannot be iterated. *)
Definition find_record (name : str) (existing_data : json)
  : exn + option nat :=
  match existing_data with
  | JArr items => scan name items 0%nat
  | JObj [] | JStr [] => inr None
  | JObj _ | JStr _ => inl AttributeError
  | _ => inl TypeError
  end.

(** The same loop in [_save_archive_info_dict], where [filename] is
    whatever the dict holds under 'filename'; [get] gives [None] for a
    record without the key. *)
Definition names_by (key : json) (record : json) : exn + bool :=
  match record with
  | JObj d => inr (py_eq (default JNull (dict_get «"filename"» d)) key)
  | _ => inl AttributeError
  end.

Fixpoint scan_by (key : json) (items : list json) (i : nat)
  : exn + option nat :=
  match items with
  | [] => inr None
  | record :: rest =>
      match names_by key record with
      | inl e => inl e
      | inr true => inr (Some i)
      | inr false => scan_by key rest (S i)
      end
  end.

Definition find_record_by (key : json) (existing_data : json)
  : exn + option nat :=
  match existing_data with
  | JArr items => scan_by key items 0%nat
  | JObj [] | JStr [] => inr None
  | JObj _ | JStr _ => inl AttributeError
  | _ => inl TypeError
  end.

(** [existing_data[i] = record], reached with a list only
    ([find_record_list]). *)
Definition setitem (existing_data : json) (i : nat) (record : json)
  : exn + json :=
  match existing_data with
  | JArr items => inr (JArr (<[i := record]> items))
  | _ => inl TypeError
  end.

(** [existing_data.append(record)]: only a list has [append]. *)
Definition append (existing_data : json) (record : json) : exn + json :=
  match existing_data with
  | JArr items => inr (JArr (items ++ [record]))
  | _ => inl AttributeError
  end.

Definition put (existing_data : json) (at_ : option nat) (record : json)
  : exn + json :=
  match at_ with
  | Some i => setitem existing_data i record
  | None => append existing_data record
  end.

Inductive outcome : Type :=
| Returns (b : bool)
| Raises (e : exn).

(** The [try] block of [save_archive_info], lines 174-211. *)
Definition save_archive_info_body (e : env) (archive_info : ArchiveInfo)
  : io unit :=
  existing_data ← load_existing e;
  existing_record ← lift (find_record (filename archive_info) existing_data);
  new_record ← lift (from_option inr (inl ValueError) (to_dict archive_info));
  let new_record := dict_set «"updated_at"» (JStr (now e)) new_record in
  existing_data ← lift (put existing_data existing_record (JObj new_record));
  write_json e existing_data.

(** [save_archive_info] on the file at [output_path]: [mkdir] runs
    before the [try], whose [except Exception] turns the rest into
    [False]. *)
Definition save_archive_info (e : env) (archive_info : ArchiveInfo)
    (disk : file) : outcome * file :=
  if mkdir_fails e then (Raises OSError, disk)
  else match save_archive_info_body e archive_info disk with
       | (inr _, disk') => (Returns true, disk')
       | (inl _, disk') => (Returns false, disk')
       end.

(** The [try] block of [_save_archive_info_dict], lines 409-435. *)
Definition _save_archive_info_dict_body (e : env) (archive_info_dict : dict)
  : io unit :=
  existing_data ← load_existing e;
  filename ← lift (from_option inr (inl KeyError)
                     (dict_get «"filename"» archive_info_dict));
  updated ← lift (find_record_by filename existing_data);
  existing_data ← lift (put existing_data updated (JObj archive_info_dict));
  write_json e existing_data.

Definition _save_archive_info_dict (e : env) (archive_info_dict : dict)
    (disk : file) : outcome * file :=
  if mkdir_fails e then (Raises OSError, disk)
  else match _save_archive_info_dict_body e archive_info_dict disk with
       | (inr _, disk') => (Returns true, disk')
       | (inl _, disk') => (Returns false, disk')
       end.

(** Lines 381-388 of [extract_file]: what is saved once the archive is
    extracted ([e] gives the extraction time). *)
Definition extracted_dict (e : env) (archive_info : ArchiveInfo)
    (extract_dir : str) : option dict :=
  match to_dict archive_info with
  | None => None
  | Some d =>
      Some (dict_set «"extraction_time"» (JStr (now e))
           (dict_set «"extract_dir"» (JStr extract_dir)
           (dict_set «"extracted"» (JBool true) d)))
  end.

Definition mark_extracted (e : env) (archive_info : ArchiveInfo)
    (extract_dir : str) (disk : file) : outcome * file :=
  match extracted_dict e archive_info extract_dir with
  | None => (Raises ValueError, disk)
  | Some d => _save_archive_info_dict e d disk
  end.

(** The names [pattern] matches: the five groups [d], [p], [f], [a],
    [m] and what is left of the name, nothing or one newline. *)
Record accepted (name d p f a m rest : str) : Prop := {
  accepted_name : name = «"chalaoshi_csv"» ++ d ++ «"_"» ++ p ++ «"_"» ++ f
                      ++ «"_"» ++ a ++ «"_"» ++ m ++ «".zip"» ++ rest;
  accepted_rest : rest = [] \/ rest = [10];
  accepted_date : length d = 8%nat /\ Forall (fun c => digit c = true) d;
  accepted_post : p <> [] /\ Forall (fun c => digit c = true) p;
  accepted_floor : f <> [] /\ Forall (fun c => digit c = true) f;
  accepted_author : a <> [] /\ Forall (fun c => c <> 95) a;
  accepted_method : m <> [] /\ Forall (fun c => c <> 46) m
}.

(** ** What the specification says of file names *)

Module Spec.

(** A digit, in the specification's sense: '0' to '9'. *)
Definition is_digit (c : N) : Prop := 48 <= c <= 57.

(** The grammar of section 4.1, the whole name being matched:
    chalaoshi_csv, eight digits, _, digits, _, digits, _, one or more
    characters other than _, _, one or more characters other than a dot,
    .zip -- with the five parts named.  A run of digits is not empty. *)
Record grammar (name d p f a m : str) : Prop := {
  whole_name : name = «"chalaoshi_csv"» ++ d ++ «"_"» ++ p ++ «"_"» ++ f
                      ++ «"_"» ++ a ++ «"_"» ++ m ++ «".zip"»;
  date_digits : length d = 8%nat /\ Forall is_digit d;
  post_digits : p <> [] /\ Forall is_digit p;
  floor_digits : f <> [] /\ Forall is_digit f;
  author_chars : a <> [] /\ Forall (fun c => c <> 95) a;
  method_chars : m <> [] /\ Forall (fun c => c <> 46) m
}.

Definition matches_grammar (name : str) : Prop :=
  exists d p f a m, grammar name d p f a m.

(** The number a string of digits writes. *)
Definition number (s : str) : N := fold_left (fun acc c => 10 * acc + (c - 48)) s 0.

Definition year_of (d : str) : N := number (take 4 d).
Definition month_of (d : str) : N := number (take 2 (drop 4 d)).
Definition day_of (d : str) : N := number (drop 6 d).

(** YYYYMMDD names a day of the calendar (which starts at year 1). *)
Definition real_date (d : str) : Prop :=
  1 <= year_of d /\
  1 <= month_of d <= 12 /\
  1 <= day_of d <= days_in_month (year_of d) (month_of d).

(** YYYYMMDD as YYYY-MM-DD: the same digits, two hyphens put in. *)
Definition hyphenated (d : str) : str :=
  take 4 d ++ «"-"» ++ take 2 (drop 4 d) ++ «"-"» ++ drop 6 d.

End Spec.

(** ** Reading the store *)

(** The stored representation of a record: its dict and 'updated_at'. *)
Definition stored (e : env) (archive_info : ArchiveInfo) : option json :=
  match to_dict archive_info with
  | Some d => Some (JObj (dict_set «"updated_at"» (JStr (now e)) d))
  | None => None
  end.

(** [record] is an object whose 'filename' is [name]. *)
Definition named (name : str) (record : json) : bool :=
  match names name record with
  | inr b => b
  | inl _ => false
  end.

Fixpoint count_named (name : str) (items : list json) : nat :=
  match items with
  | [] => 0
  | record :: rest =>
      ((if named name record then 1 else 0) + count_named name rest)%nat
  end.

(** The records of a store; a store that is missing or cannot be
    parsed has none. *)
Definition entries (disk : file) : list json :=
  match disk with
  | Document (JArr items) => items
  | _ => []
  end.

(** The list after the record went to its place. *)
Definition place (items : list json) (at_ : option nat) (record : json)
  : list json :=
  match at_ with
  | Some i => <[i := record]> items
  | None => items ++ [record]
  end.

(** An upsert: a call of [save_archive_info] that can open the store
    file for reading and returns [True]. *)
Definition upsert (e : env) (archive_info : ArchiveInfo)
    (disk disk' : file) : Prop :=
  read_fails e = false /\
  save_archive_info e archive_info disk = (Returns true, disk').

(** The same for [_save_archive_info_dict]. *)
Definition upsert_dict (e : env) (archive_info_dict : dict)
    (disk disk' : file) : Prop :=
  read_fails e = false /\
  _save_archive_info_dict e archive_info_dict disk = (Returns true, disk').

(** No file name occurs twice in the list. *)
Definition unique_names (items : list json) : Prop :=
  forall name, (count_named name items <= 1)%nat.

(** The keys of a stored object, section 6 of the specification. *)
Definition persisted_keys : list str :=
  [ «"filename"»; «"date_str"»; «"date_formatted"»; «"post_id"»;
    «"floor_number"»; «"author_id"»; «"encryption_method"»; «"forum_url"»;
    «"password_description"»; «"updated_at"» ].

(** ** Sample inputs *)

Module Sample.

(** The file name of the specification's scenario. *)
Definition scenario_name : str :=
  «"chalaoshi_csv20250502_5399305_2696_26893D_sha256.zip"».

(** A name of the grammar followed by a newline. *)
Definition newline_name : str :=
  «"chalaoshi_csv20250502_1_1_a_sha256.zip"» ++ [10].

(** A name whose post id is the fullwidth digit one, U+FF11. *)
Definition wide_digit_name : str :=
  «"chalaoshi_csv20250502_"» ++ [65297] ++ «"_1_a_sha256.zip"».

(** A name of the grammar dated on a leap day. *)
Definition leap_day_name : str := «"chalaoshi_csv20240229_12_3_ab_md5.zip"».

(** A name of the grammar with a date before the year 1000. *)
Definition short_year_name : str :=
  «"chalaoshi_csv09990101_1_1_a_sha256.zip"».

(** A call that meets no failure, and a later one. *)
Definition sound : env :=
  {| mkdir_fails := false; read_fails := false; write_fault := NoFault;
     now := «"2025-05-02T10:00:00"» |}.

Definition later : env :=
  {| mkdir_fails := false; read_fails := false; write_fault := NoFault;
     now := «"2025-05-02T10:05:00"» |}.



(** The record of the scenario, the same with another floor, and a
    record of another file. *)
Definition archive : ArchiveInfo :=
  {| filename := scenario_name; date_str := «"20250502"»;
     post_id := «"5399305"»; floor_number := «"2696"»;
     author_id := «"26893D"»; encryption_method := «"sha256"» |}.

Definition archive_again : ArchiveInfo :=
  {| filename := scenario_name; date_str := «"20250502"»;
     post_id := «"5399305"»; floor_number := «"2700"»;
     author_id := «"26893D"»; encryption_method := «"sha256"» |}.

Definition leap_archive : ArchiveInfo :=
  {| filename := leap_day_name; date_str := «"20240229"»;
     post_id := «"12"»; floor_number := «"3"»;
     author_id := «"ab"»; encryption_method := «"md5"» |}.

(** A store that lists the scenario's file twice. *)
Definition listed_twice : file :=
  Document (JArr [ JObj [(«"filename"», JStr scenario_name)];
                   JObj [(«"filename"», JStr scenario_name);
                         («"post_id"», JStr «"1"»)] ]).

(** A store with one record of another file. *)
Definition one_record : file :=
  Document (JArr [ JObj [(«"filename"», JStr leap_day_name)] ]).

End Sample.

(** ** Two statements that the code does not meet as they stand *)

(** Upserting [a1] and then [a2] leaves one record of [a2]'s name, the
    second one, where the first one was. *)
Definition replaced_in_place (e1 e2 : env) (a1 a2 : ArchiveInfo)
    (disk : file) : Prop :=
  forall disk1 disk2,
    upsert e1 a1 disk disk1 -> upsert e2 a2 disk1 disk2 ->
    exists i r1 r2,
      stored e1 a1 = Some r1 /\ stored e2 a2 = Some r2 /\
      entries disk1 !! i = Some r1 /\
      entries disk2 = <[i := r2]> (entries disk1) /\
      count_named (filename a2) (entries disk2) = 1%nat.


(** ** The configuration and the extraction of an archive *)

(** The configuration, as far as the extraction reads it: its sections
    are the dicts and lists the code expects, and every password is a
    str.  An entry of a file's password list is a str, a dict (of which
    'content' and 'type' are read) or something else, which is skipped.
    The content of a dict is a password, hence a str, unless its type is
    'raw': what is hashed may be anything. *)
Inductive PasswordConfig : Type :=
| Direct (password : str)
| Described (content type : option str)
                       (* a dict; [None] for a key that is not there; a
                          'type' that is not a str is like any str other
                          than 'raw' *)
| Unhashable           (* a dict of type 'raw' whose 'content' is not a
                          str: null, a number, a list *)
| Unusable.

Record Task : Type := {
  task_archive_path : option str;      (* task.get('archive_path') *)
  task_extract_dir : option str;       (* task.get('extract_dir') *)
  task_password : option str           (* task.get('password') *)
}.

Record Config : Type := {
  supported_formats : list str;        (* extract.supported_formats *)
  default_extract_dir : option str;    (* extract.default_extract_dir, when
                                          it is there and not null *)
  file_passwords : gmap str (list PasswordConfig);
  default_passwords_value : option (list str);
                                       (* passwords.default_passwords, [[]]
                                          when the key is not there;
                                          [None] when it holds something
                                          that is not a list *)
  extract_tasks : list Task
}.

(** The default passwords, when they are a list. *)
Definition default_passwords (c : Config) : list str :=
  default [] (default_passwords_value c).

(** What [zipfile] does with an archive, a directory and a password. *)
Inductive unzipped : Type :=
| Unzipped                  (* [extractall] returned *)
| Refused                   (* BadZipFile, RuntimeError, NotImplementedError *)
| Crashed (e : exn).        (* another exception *)

(** What one call of [extract_file] meets outside the program: the
    answers of [pathlib], [hashlib] and [zipfile], and the two calls that
    write the store. *)
Record call : Type := {
  path_exists_ : str -> bool;          (* Path(p).exists() *)
  path_name : str -> str;              (* Path(p).name *)
  suffix_lower : str -> str;           (* Path(p).suffix.lower() *)
  last_suffixes_lower : str -> option str;
                                       (* the last two of Path(p).suffixes,
                                          joined and lowered, when there
                                          are two or more *)
  sha256_hexdigest : str -> str;       (* of the UTF-8 bytes of a str *)
  zipfile : str -> str -> option str -> unzipped;
  extract_dir_fails : str -> bool;     (* [mkdir] or [iterdir] on the
                                          extraction directory raises *)
  first_save : env;                    (* for [save_archive_info] *)
  second_save : env                    (* for [_save_archive_info_dict] *)
}.

(** The store, and the archives [zipfile] was asked to extract: path,
    directory and password, in the order of the attempts. *)
Record state : Type := {
  store : file;
  attempts : list (str * str * option str)
}.

Definition _is_supported_format (c : Config) (k : call) (file_path : str)
  : bool :=
  if bool_decide (suffix_lower k file_path ∈ supported_formats c) then true
  else match last_suffixes_lower k file_path with
       | Some compound_suffix =>
           bool_decide (compound_suffix ∈ supported_formats c)
       | None => false
       end.

(** A str can be encoded in UTF-8 when it holds no surrogate. *)
Definition encodable (s : str) : bool :=
  forallb (fun c => negb (range 55296 57343 c)) s.

(** The first loop of [_get_passwords_for_file]; [ValueError] stands for
    the UnicodeEncodeError, one of its kinds, of [content.encode('utf-8')];
    what is not a str has no [encode]. *)
Fixpoint collect_passwords (k : call) (password_configs : list PasswordConfig)
    (passwords : list str) : exn + list str :=
  match password_configs with
  | [] => inr passwords
  | Direct pwd :: rest => collect_passwords k rest (passwords ++ [pwd])
  | Described content type :: rest =>
      let content := default [] content in
      let pwd_type := default «"hash"» type in
      if bool_decide (pwd_type = «"raw"») then
        if encodable content
        then collect_passwords k rest (passwords ++ [sha256_hexdigest k content])
        else inl ValueError
      else collect_passwords k rest (passwords ++ [content])
  | Unhashable :: rest => inl AttributeError
  | Unusable :: rest => collect_passwords k rest passwords
  end.

(** The body of the second loop: [if pwd not in all_passwords: append]. *)
Definition add_new (all_passwords : list str) (pwd : str) : list str :=
  if bool_decide (pwd ∈ all_passwords) then all_passwords
  else all_passwords ++ [pwd].

Definition _get_passwords_for_file (c : Config) (k : call) (archive_path : str)
  : exn + list str :=
  let filename := path_name k archive_path in
  let password_configs := default [] (file_passwords c !! filename) in
  match collect_passwords k password_configs [] with
  | inl e => inl e
  | inr passwords =>
      match default_passwords_value c with
      | Some default_passwords =>
          inr (fold_left add_new (passwords ++ default_passwords) [])
      | None => inl TypeError       (* [passwords + default_passwords] *)
      end
  end.

(** [_extract_zip]: an empty password is not given to [zipfile]. *)
Definition _extract_zip (k : call) (archive_path extract_dir password : str)
  : outcome :=
  match zipfile k archive_path extract_dir
          (if password is [] then None else Some password) with
  | Unzipped => Returns true
  | Refused => Returns false
  | Crashed e => Raises e
  end.

(** [_try_extract_with_password]: only '.zip' reaches [zipfile], and what
    [_extract_zip] raises becomes [False]. *)
Definition _try_extract_with_password (k : call)
    (archive_path extract_dir password : str)
    (log : list (str * str * option str))
  : bool * list (str * str * option str) :=
  if bool_decide (suffix_lower k archive_path = «".zip"») then
    (match _extract_zip k archive_path extract_dir password with
     | Returns b => b
     | Raises _ => false
     end,
     log ++ [(archive_path, extract_dir,
              if password is [] then None else Some password)])
  else (false, log).

(** The loop of [extract_file] over the passwords, up to the first one
    that works. *)
Fixpoint try_passwords (k : call) (archive_path extract_dir : str)
    (passwords_to_try : list str) (log : list (str * str * option str))
  : bool * list (str * str * option str) :=
  match passwords_to_try with
  | [] => (false, log)
  | pwd :: rest =>
      let '(ok, log') :=
        _try_extract_with_password k archive_path extract_dir pwd log in
      if ok then (true, log')
      else try_passwords k archive_path extract_dir rest log'
  end.

(** Lines 345-351: the directory given, else the configured one, else
    'extracted'. *)
Definition extraction_dir (c : Config) (extract_dir : option str) : str :=
  match extract_dir with
  | Some d => d
  | None => default «"extracted"» (default_extract_dir c)
  end.

Definition extract_file (c : Config) (k : call) (archive_path : str)
    (extract_dir password : option str) (s : state) : outcome * state :=
  if negb (path_exists_ k archive_path) then (Returns false, s)
  else if negb (_is_supported_format c k archive_path) then (Returns false, s)
  else
    let archive_info := parse_archive_filename (path_name k archive_path) in
    match (match archive_info with
           | Some a => save_archive_info (first_save k) a (store s)
           | None => (Returns true, store s)
           end) with
    | (Raises e, disk) => (Raises e, {| store := disk; attempts := attempts s |})
    | (Returns _, disk) =>
        let extract_dir := extraction_dir c extract_dir in
        if extract_dir_fails k extract_dir
        then (Raises OSError, {| store := disk; attempts := attempts s |})
        else
          match (match password with
                 | Some pwd => inr [pwd]
                 | None => _get_passwords_for_file c k archive_path
                 end) with
          | inl e => (Raises e, {| store := disk; attempts := attempts s |})
          | inr passwords_to_try =>
              let '(ok, log) :=
                try_passwords k archive_path extract_dir passwords_to_try
                  (attempts s) in
              if ok then
                match archive_info with
                | Some a =>
                    match mark_extracted (second_save k) a extract_dir disk with
                    | (Raises e, disk') =>
                        (Raises e, {| store := disk'; attempts := log |})
                    | (Returns _, disk') =>
                        (Returns true, {| store := disk'; attempts := log |})
                    end
                | None => (Returns true, {| store := disk; attempts := log |})
                end
              else (Returns false, {| store := disk; attempts := log |})
          end
    end.

(** The loop of [extract_from_config]; [calls i] is what the call for
    the task of index [i] meets. *)
Fixpoint run_tasks (c : Config) (calls : nat -> call) (i : nat)
    (tasks : list Task) (results : gmap str bool) (s : state)
  : (exn + gmap str bool) * state :=
  match tasks with
  | [] => (inr results, s)
  | task :: rest =>
      match task_archive_path task with
      | None | Some [] => run_tasks c calls (S i) rest results s
      | Some archive_path =>
          let password :=
            match task_password task with
            | Some [] => None
            | password => password
            end in
          match extract_file c (calls i) archive_path (task_extract_dir task)
                  password s with
          | (Raises e, s') => (inl e, s')
          | (Returns success, s') =>
              run_tasks c calls (S i) rest (<[archive_path := success]> results) s'
          end
      end
  end.

Definition extract_from_config (c : Config) (calls : nat -> call) (s : state)
  : (exn + gmap str bool) * state :=
  run_tasks c calls 0 (extract_tasks c) ∅ s.

(** ** Reading the extraction *)

(** The password an entry of a file's list stands for, if any. *)
Definition entry_passwords (k : call) (pwd_config : PasswordConfig)
  : list str :=
  match pwd_config with
  | Direct pwd => [pwd]
  | Described content type =>
      if bool_decide (default «"hash"» type = «"raw"»)
      then [sha256_hexdigest k (default [] content)]
      else [default [] content]
  | Unhashable | Unusable => []
  end.

(** The entry is not a 'raw' one whose content cannot be hashed: a str
    that cannot be encoded, or something that is not a str. *)
Definition hashable (pwd_config : PasswordConfig) : bool :=
  match pwd_config with
  | Described content type =>
      negb (bool_decide (default «"hash"» type = «"raw"»))
      || encodable (default [] content)
  | Unhashable => false
  | _ => true
  end.

(** The entries of the configuration for an archive. *)
Definition entries_for (c : Config) (k : call) (archive_path : str)
  : list PasswordConfig :=
  default [] (file_passwords c !! path_name k archive_path).

(** The passwords [extract_file] goes through. *)
Definition passwords_to_try (c : Config) (k : call) (archive_path : str)
    (password : option str) : exn + list str :=
  match password with
  | Some pwd => inr [pwd]
  | None => _get_passwords_for_file c k archive_path
  end.

(** What [zipfile] is asked when a password is tried, and whether it
    extracts the archive. *)
Definition asked (archive_path extract_dir password : str)
  : str * str * option str :=
  (archive_path, extract_dir, if password is [] then None else Some password).

Definition opens (k : call) (archive_path extract_dir password : str) : bool :=
  match zipfile k archive_path extract_dir
          (if password is [] then None else Some password) with
  | Unzipped => true
  | _ => false
  end.

(** The archive paths of the tasks that are run. *)
Definition task_paths (tasks : list Task) : list str :=
  omap (fun task => match task_archive_path task with
                    | Some (c :: p) => Some (c :: p)
                    | _ => None
                    end) tasks.

(** A save that meets no failure: the directory can be made, the store
    file can be opened for reading and the write goes through. *)
Definition unfailing (e : env) : Prop :=
  mkdir_fails e = false /\ read_fails e = false /\ write_fault e = NoFault.

(** A store [load_existing] reads as a list: no file, a file that is no
    JSON text, or a document that [json.load] returns a list for. *)
Definition listed (disk : file) : Prop :=
  disk = Missing \/ disk = Malformed \/ exists items, disk = Document (JArr items).

(** What [zipfile] was asked about: the archive of a task, to be
    extracted into the directory of that task. *)
Definition of_task (c : Config) (tasks : list Task)
    (request : str * str * option str) : Prop :=
  exists task archive_path,
    task ∈ tasks /\
    task_archive_path task = Some archive_path /\
    request.1.1 = archive_path /\
    request.1.2 = extraction_dir c (task_extract_dir task).

Module SampleRun.

(** A configuration with three entries for the scenario's archive and
    three default passwords. *)
Definition config : Config :=
  {| supported_formats := [«".zip"»];
     default_extract_dir := None;
     file_passwords :=
       {[ Sample.scenario_name :=
            [Direct «"guess"»; Described (Some «"secret"») None; Unusable] ]};
     default_passwords_value := Some [«"guess"»; «"secret"»; «"last"»];
     extract_tasks :=
       [ {| task_archive_path := Some Sample.scenario_name;
            task_extract_dir := None; task_password := Some [] |};
         {| task_archive_path := None;
            task_extract_dir := None; task_password := None |};
         {| task_archive_path := Some Sample.scenario_name;
            task_extract_dir := Some «"out"»;
            task_password := Some «"wrong"» |} ] |}.

(** A configuration without any password. *)
Definition bare_config : Config :=
  {| supported_formats := [«".zip"»]; default_extract_dir := None;
     file_passwords := ∅; default_passwords_value := Some [];
     extract_tasks := [] |}.

(** A configuration with a 'raw' entry whose content, a lone surrogate,
    cannot be encoded. *)
Definition surrogate_config : Config :=
  {| supported_formats := [«".zip"»]; default_extract_dir := None;
     file_passwords :=
       {[ Sample.scenario_name :=
            [Direct «"guess"»; Described (Some [55296]) (Some «"raw"»)] ]};
     default_passwords_value := Some []; extract_tasks := [] |}.

(** A call that meets no failure, for paths that are bare '.zip' names;
    the archive opens with the password "secret". *)
Definition quiet : call :=
  {| path_exists_ := fun _ => true;
     path_name := fun p => p;
     suffix_lower := fun _ => «".zip"»;
     last_suffixes_lower := fun _ => None;
     sha256_hexdigest := fun s => «"sha256 of "» ++ s;
     zipfile := fun _ _ password =>
                  if bool_decide (password = Some «"secret"») then Unzipped
                  else Refused;
     extract_dir_fails := fun _ => false;
     first_save := Sample.sound;
     second_save := Sample.later |}.

Definition start : state := {| store := Sample.one_record; attempts := [] |}.

End SampleRun.

(** * Properties *)

(** ** The matcher on strings of a known shape *)

Section Matcher.

Context {R : Type}.
Implicit Types (s xs : str) (g : list str) (k : str -> list str -> option R).

Lemma exec_Str l s g k : exec (Str l) (l ++ s) g k = k s g.
Proof.
  induction l as [|c l IH]; simpl; [reflexivity|].
  rewrite N.eqb_refl. apply IH.
Qed.

Lemma exec_Rep_Cls p xs s g k :
  Forall (fun c => p c = true) xs ->
  exec (Rep (length xs) (Cls p)) (xs ++ s) g k = k s g.
Proof.
  induction 1 as [|c xs Hc _ IH]; simpl; [reflexivity|].
  rewrite Hc. apply IH.
Qed.

(** A greedy class+ takes the whole run when the rest of the pattern
    accepts what follows it. *)
Lemma plus_loop_run p xs s (k1 : str -> option R) v :
  xs <> [] ->
  Forall (fun c => p c = true) xs ->
  head (p <$> s) <> Some true ->
  k1 s = Some v ->
  plus_loop p (xs ++ s) k1 = Some v.
Proof.
  intros Hne Hall Hstop Hk. induction Hall as [|c xs Hc Hall IH]; [done|].
  simpl. rewrite Hc. destruct xs as [|c' xs'].
  - simpl. destruct s as [|c0 s0]; simpl; [exact Hk|].
    simpl in Hstop. destruct (p c0); [congruence | exact Hk].
  - rewrite IH; [reflexivity | discriminate].
Qed.

Lemma take_captured xs s : take (length (xs ++ s) - length s) (xs ++ s) = xs.
Proof.
  rewrite length_app.
  replace (length xs + length s - length s)%nat with (length xs) by lia.
  apply take_app_length.
Qed.

Lemma exec_Grp_Rep_Cls p xs s g k :
  Forall (fun c => p c = true) xs ->
  exec (Grp (Rep (length xs) (Cls p))) (xs ++ s) g k = k s (g ++ [xs]).
Proof.
  intros H. simpl. rewrite exec_Rep_Cls by exact H.
  by rewrite take_captured.
Qed.

Lemma exec_Grp_Plus p xs s g k v :
  xs <> [] ->
  Forall (fun c => p c = true) xs ->
  head (p <$> s) <> Some true ->
  k s (g ++ [xs]) = Some v ->
  exec (Grp (Plus p)) (xs ++ s) g k = Some v.
Proof.
  intros Hne Hall Hstop Hk. simpl.
  apply plus_loop_run; try assumption.
  by rewrite take_captured.
Qed.

End Matcher.

(** ** The parser on the names of the grammar *)

Lemma decimal_value_digit c :
  Spec.is_digit c -> Unicode.decimal_value c = Some (c - 48).
Proof.
  intros [Hlo Hhi]. unfold Unicode.decimal_value, Unicode.decimal_runs.
  cbn [find]. unfold Unicode.in_run at 1.
  replace (48 <=? c) with true by (symmetry; apply N.leb_le; lia).
  replace (c <? 48 + 10) with true by (symmetry; apply N.ltb_lt; lia).
  reflexivity.
Qed.

Lemma digit_is_decimal c : Spec.is_digit c -> digit c = true.
Proof.
  intros H. unfold digit, Unicode.is_decimal.
  by rewrite decimal_value_digit.
Qed.

Lemma digits_are_decimal s :
  Forall Spec.is_digit s -> Forall (fun c => digit c = true) s.
Proof. intros H. eapply Forall_impl; [exact H | exact digit_is_decimal]. Qed.

Lemma other_than_true x s :
  Forall (fun c => c <> x) s -> Forall (fun c => other_than x c = true) s.
Proof.
  intros H. eapply Forall_impl; [exact H|].
  intros c Hc. unfold other_than.
  apply negb_true_iff, N.eqb_neq, Hc.
Qed.

Lemma exec_Cat {R} r1 r2 s g (k : str -> list str -> option R) :
  exec (Cat r1 r2) s g k = exec r1 s g (fun s' g' => exec r2 s' g' k).
Proof. reflexivity. Qed.

Lemma exec_Chr {R} c s g (k : str -> list str -> option R) :
  exec (Chr c) (c :: s) g k = k s g.
Proof. simpl. by rewrite N.eqb_refl. Qed.

(** The pattern matches every accepted name, with these groups. *)
Lemma pattern_accepted name d p f a m rest :
  accepted name d p f a m rest ->
  rmatch pattern name = Some ([d; p; f; a; m], rest).
Proof.
  intros [-> Hrest [Hd8 Hd] [Hp0 Hp] [Hf0 Hf] [Ha0 Ha] [Hm0 Hm]].
  unfold rmatch, pattern.
  rewrite exec_Cat, exec_Str, exec_Cat.
  rewrite <- Hd8.
  rewrite exec_Grp_Rep_Cls by done.
  change «"_"» with [95]. cbn [app].
  rewrite exec_Cat, exec_Chr, exec_Cat.
  apply exec_Grp_Plus; [done | done | by vm_compute |].
  rewrite exec_Cat, exec_Chr, exec_Cat.
  apply exec_Grp_Plus; [done | done | by vm_compute |].
  rewrite exec_Cat, exec_Chr, exec_Cat.
  apply exec_Grp_Plus; [done | by apply other_than_true | by vm_compute |].
  rewrite exec_Cat, exec_Chr, exec_Cat.
  apply exec_Grp_Plus; [done | by apply other_than_true | by vm_compute |].
  rewrite exec_Cat, exec_Str.
  by destruct Hrest as [-> | ->].
Qed.

Lemma grammar_accepted name d p f a m :
  Spec.grammar name d p f a m -> accepted name d p f a m [].
Proof.
  intros [-> [Hd8 Hd] [Hp0 Hp] [Hf0 Hf] Ha Hm].
  split; try done; try (split; [done | by apply digits_are_decimal]).
  by left.
Qed.

(** On a name of the grammar the pattern matches the whole name and the
    groups are the five parts. *)
Lemma pattern_on_grammar name d p f a m :
  Spec.grammar name d p f a m ->
  rmatch pattern name = Some ([d; p; f; a; m], []).
Proof. intros H. by apply pattern_accepted, grammar_accepted. Qed.

(** ** [strptime] and [strftime] on eight digits *)

Section MatcherSteps.

Context {R : Type}.
Implicit Types (s xs : str) (g : list str) (k : str -> list str -> option R).

Lemma exec_Chr_ne c x s g k : x <> c -> exec (Chr c) (x :: s) g k = None.
Proof. intros H. simpl. by apply N.eqb_neq in H as ->. Qed.

Lemma exec_Cls_true p x s g k : p x = true -> exec (Cls p) (x :: s) g k = k s g.
Proof. intros H. simpl. by rewrite H. Qed.

Lemma exec_Cls_false p x s g k : p x = false -> exec (Cls p) (x :: s) g k = None.
Proof. intros H. simpl. by rewrite H. Qed.

Lemma exec_Alt r1 r2 s g k :
  exec (Alt r1 r2) s g k =
  match exec r1 s g k with Some v => Some v | None => exec r2 s g k end.
Proof. reflexivity. Qed.

(** A group captures what its body consumed. *)
Lemma exec_Grp_of r xs s g k v :
  (forall k', k' s g = Some v -> exec r (xs ++ s) g k' = Some v) ->
  k s (g ++ [xs]) = Some v ->
  exec (Grp r) (xs ++ s) g k = Some v.
Proof.
  intros Hr Hk. simpl. apply Hr. by rewrite take_captured.
Qed.

Lemma range_true lo hi c : lo <= c <= hi -> range lo hi c = true.
Proof.
  intros [H1 H2]. unfold range.
  apply andb_true_iff. split; by apply N.leb_le.
Qed.

Lemma range_false lo hi c : c < lo \/ hi < c -> range lo hi c = false.
Proof.
  intros H. unfold range. apply andb_false_iff.
  destruct H; [left | right]; apply N.leb_gt; assumption.
Qed.

Lemma month_regex_two c1 c2 s g k v :
  Spec.is_digit c1 -> Spec.is_digit c2 ->
  1 <= Spec.number [c1; c2] <= 12 ->
  k s g = Some v ->
  exec month_regex ([c1; c2] ++ s) g k = Some v.
Proof.
  unfold Spec.is_digit, Spec.number. cbn [fold_left app].
  intros H1 H2 Hm Hk.
  assert (c1 = 48 /\ 49 <= c2 \/ c1 = 49 /\ c2 <= 50) as [[-> ?]|[-> ?]] by lia;
    unfold month_regex.
  - rewrite exec_Alt, exec_Cat, exec_Chr_ne by done.
    rewrite exec_Alt, exec_Cat, exec_Chr.
    rewrite exec_Cls_true by (apply range_true; lia).
    by rewrite Hk.
  - rewrite exec_Alt, exec_Cat, exec_Chr.
    rewrite exec_Cls_true by (apply range_true; lia).
    by rewrite Hk.
Qed.

Lemma day_regex_two c1 c2 s g k v :
  Spec.is_digit c1 -> Spec.is_digit c2 ->
  1 <= Spec.number [c1; c2] <= 31 ->
  k s g = Some v ->
  exec day_regex ([c1; c2] ++ s) g k = Some v.
Proof.
  intros H1 H2 Hd Hk. pose proof (digit_is_decimal _ H2) as Hdec.
  unfold Spec.is_digit, Spec.number in *. cbn [fold_left app] in *.
  assert (c1 = 48 /\ 49 <= c2 \/ (c1 = 49 \/ c1 = 50) \/ c1 = 51 /\ c2 <= 49)
    as [[-> ?]|[[-> | ->]|[-> ?]]] by lia;
    unfold day_regex.
  - rewrite exec_Alt, exec_Cat, exec_Chr_ne by done.
    rewrite exec_Alt, exec_Cat, exec_Cls_false by done.
    rewrite exec_Alt, exec_Cat, exec_Chr.
    rewrite exec_Cls_true by (apply range_true; lia).
    by rewrite Hk.
  - rewrite exec_Alt, exec_Cat, exec_Chr_ne by done.
    rewrite exec_Alt, exec_Cat, exec_Cls_true by done.
    rewrite exec_Cls_true by done.
    by rewrite Hk.
  - rewrite exec_Alt, exec_Cat, exec_Chr_ne by done.
    rewrite exec_Alt, exec_Cat, exec_Cls_true by done.
    rewrite exec_Cls_true by done.
    by rewrite Hk.
  - rewrite exec_Alt, exec_Cat, exec_Chr.
    rewrite exec_Cls_true by (apply range_true; lia).
    by rewrite Hk.
Qed.

End MatcherSteps.

Lemma int_from_digits s acc :
  Forall Spec.is_digit s ->
  Unicode.int_from acc s = Some (fold_left (fun n c => 10 * n + (c - 48)) s acc).
Proof.
  intros H. revert acc. induction H as [|c s Hc _ IH]; intros acc; simpl.
  - reflexivity.
  - rewrite decimal_value_digit by exact Hc. apply IH.
Qed.

Lemma int_digits s :
  s <> [] -> Forall Spec.is_digit s -> Unicode.int s = Some (Spec.number s).
Proof.
  intros Hne H. destruct s as [|c s]; [done|].
  pose proof (Forall_inv H) as [Hlo _].
  cbn [Unicode.int].
  replace (c =? 32) with false by (symmetry; apply N.eqb_neq; lia).
  by apply int_from_digits.
Qed.

Lemma days_in_month_le y m : days_in_month y m <= 31.
Proof.
  unfold days_in_month.
  repeat match goal with |- context [if ?b then _ else _] => destruct b end; lia.
Qed.

Lemma number_snoc s c : Spec.number (s ++ [c]) = 10 * Spec.number s + (c - 48).
Proof. unfold Spec.number. by rewrite fold_left_app. Qed.

Lemma zero_padded_number s :
  Forall Spec.is_digit s -> zero_padded (length s) (Spec.number s) = s.
Proof.
  induction s as [|c s IH] using rev_ind; intros H; [reflexivity|].
  apply Forall_app in H as [Hs Hc]. apply Forall_inv in Hc as [Hlo Hhi].
  rewrite length_app, Nat.add_1_r, number_snoc. cbn [zero_padded].
  replace ((10 * Spec.number s + (c - 48)) / 10) with (Spec.number s).
  2:{ apply (N.div_unique _ 10 _ (c - 48)); lia. }
  replace ((10 * Spec.number s + (c - 48)) mod 10) with (c - 48).
  2:{ apply (N.mod_unique _ 10 (Spec.number s)); lia. }
  rewrite IH by exact Hs. f_equal. f_equal. lia.
Qed.

Local Ltac all_digits :=
  repeat (apply List.Forall_cons; [assumption|]); apply List.Forall_nil.

(** The same on a given string, by computation. *)
Local Ltac each_char :=
  repeat (apply List.Forall_cons; [by vm_compute|]); apply List.Forall_nil.

(** [strptime] on a few strings: a day, a leap day, the thirtieth of
    February, a month 99, the year 0, a year in fullwidth digits, a month
    in fullwidth digits. *)
Lemma strptime_samples :
  strptime «"20250502"» = Some (Date 2025 5 2) /\
  strptime «"20240229"» = Some (Date 2024 2 29) /\
  strptime «"20250230"» = None /\
  strptime «"20259901"» = None /\
  strptime «"00000101"» = None /\
  strptime ([65298; 65296; 65298; 65301] ++ «"0502"») = Some (Date 2025 5 2) /\
  strptime («"2025"» ++ [65296; 65301] ++ «"02"») = None.
Proof. by vm_compute. Qed.

(** Eight digits that name a day of the calendar are accepted by
    [strptime], which reads off the year, the month and the day. *)
Lemma strptime_real_date d :
  length d = 8%nat -> Forall Spec.is_digit d -> Spec.real_date d ->
  strptime d =
  Some (Date (Spec.year_of d) (Spec.month_of d) (Spec.day_of d)).
Proof.
  intros Hlen Hd (Hy & Hm & Hday).
  do 9 (destruct d as [|? d]; try discriminate Hlen).
  repeat match goal with
         | H : Forall _ (_ :: _) |- _ => apply Forall_cons in H as [? H]
         end.
  unfold Spec.year_of, Spec.month_of, Spec.day_of in *.
  cbn [take drop] in *.
  pose proof (days_in_month_le (Spec.number [n; n0; n1; n2])
                (Spec.number [n3; n4])) as Hle.
  unfold strptime.
  assert (rmatch format_regex [n; n0; n1; n2; n3; n4; n5; n6]
          = Some ([[n; n0; n1; n2]; [n3; n4]; [n5; n6]], [])) as ->.
  { unfold rmatch, format_regex. rewrite exec_Cat.
    change [n; n0; n1; n2; n3; n4; n5; n6]
      with ([n; n0; n1; n2] ++ [n3; n4] ++ [n5; n6] ++ []).
    apply exec_Grp_of.
    { intros k' Hk'. unfold year_regex.
      change 4%nat with (length [n; n0; n1; n2]).
      rewrite exec_Rep_Cls; [exact Hk'|].
      apply digits_are_decimal. all_digits. }
    rewrite exec_Cat. apply exec_Grp_of.
    { intros k' Hk'. by apply month_regex_two. }
    apply exec_Grp_of; [|reflexivity].
    intros k' Hk'. apply day_regex_two; try done. lia. }
  rewrite !int_digits by (try done; all_digits).
  replace (valid_date _ _ _) with true; [reflexivity|].
  symmetry. unfold valid_date.
  repeat (apply andb_true_iff; split); apply N.leb_le; try lia.
  unfold Spec.is_digit, Spec.number in *. cbn [fold_left]. lia.
Qed.

Lemma strftime_real_date d :
  length d = 8%nat -> Forall Spec.is_digit d ->
  1000 <= Spec.year_of d ->
  strftime (Date (Spec.year_of d) (Spec.month_of d) (Spec.day_of d))
  = Spec.hyphenated d.
Proof.
  intros Hlen Hd Hyear.
  unfold strftime, unpadded, Spec.hyphenated. cbn [year month day].
  destruct (N.ltb_spec (Spec.year_of d) 10); [lia|].
  destruct (N.ltb_spec (Spec.year_of d) 100); [lia|].
  destruct (N.ltb_spec (Spec.year_of d) 1000); [lia|].
  unfold Spec.year_of, Spec.month_of, Spec.day_of.
  assert (Forall Spec.is_digit (take 4 d)) as H4 by by apply Forall_take.
  assert (Forall Spec.is_digit (take 2 (drop 4 d))) as H2
    by by apply Forall_take, Forall_drop.
  assert (Forall Spec.is_digit (drop 6 d)) as H6 by by apply Forall_drop.
  assert (length (take 4 d) = 4%nat) as L4 by (rewrite length_take; lia).
  assert (length (take 2 (drop 4 d)) = 2%nat) as L2
    by (rewrite length_take, length_drop; lia).
  assert (length (drop 6 d) = 2%nat) as L6 by (rewrite length_drop; lia).
  pose proof (zero_padded_number _ H4) as E4. rewrite L4 in E4.
  pose proof (zero_padded_number _ H2) as E2. rewrite L2 in E2.
  pose proof (zero_padded_number _ H6) as E6. rewrite L6 in E6.
  by rewrite E4, E2, E6.
Qed.

(** ** The matcher matches only what the pattern allows *)

Lemma plus_loop_inv {R} p s (k1 : str -> option R) v :
  plus_loop p s k1 = Some v ->
  exists xs rest,
    s = xs ++ rest /\ xs <> [] /\ Forall (fun c => p c = true) xs /\
    k1 rest = Some v.
Proof.
  induction s as [|c s IH]; simpl; [done|].
  destruct (p c) eqn:Hc; [|done].
  destruct (plus_loop p s k1) as [v'|] eqn:Hloop.
  - intros [= ->]. destruct (IH eq_refl) as (xs & rest & -> & _ & Hxs & Hk).
    exists (c :: xs), rest. split; [done|]. split; [done|].
    split; [by constructor | done].
  - intros Hk. exists [c], s. split; [done|]. split; [done|].
    split; [by repeat constructor | done].
Qed.

Lemma at_end_spec s : at_end s = true <-> s = [] \/ s = [10].
Proof.
  destruct s as [|c [|c' s]]; simpl.
  - split; [by left | done].
  - rewrite N.eqb_eq. split; [intros ->; by right | by intros [|[= ->]]].
  - split; [done | by intros [|]].
Qed.

Lemma exec_sound {R} r :
  forall s g (k : str -> list str -> option R) v,
    exec r s g k = Some v ->
    exists xs rest caps,
      s = xs ++ rest /\ matches r xs rest caps /\
      k rest (g ++ caps) = Some v.
Proof.
  induction r as [|c|p|r1 IH1 r2 IH2|r1 IH1 r2 IH2|p|r IH|];
    intros s g k v; simpl.
  - intros Hk. exists [], s, []. rewrite app_nil_r.
    split; [done|]. split; [constructor | done].
  - destruct s as [|x s]; [done|].
    destruct (N.eqb_spec x c) as [->|]; [|done].
    intros Hk. exists [c], s, []. rewrite app_nil_r.
    split; [done|]. split; [constructor | done].
  - destruct s as [|x s]; [done|]. destruct (p x) eqn:Hp; [|done].
    intros Hk. exists [x], s, []. rewrite app_nil_r.
    split; [done|]. split; [by constructor | done].
  - intros (xs & rest1 & c1 & -> & Hm1 & H2)%IH1.
    apply IH2 in H2 as (ys & rest & c2 & -> & Hm2 & Hk).
    exists (xs ++ ys), rest, (c1 ++ c2). rewrite <- !app_assoc in *.
    split; [done|]. split; [by constructor | done].
  - destruct (exec r1 s g k) as [v'|] eqn:H1.
    + intros [= ->]. apply IH1 in H1 as (xs & rest & c & -> & Hm & Hk).
      exists xs, rest, c. split; [done|]. split; [by apply M_Alt_l | done].
    + intros (xs & rest & c & -> & Hm & Hk)%IH2.
      exists xs, rest, c. split; [done|]. split; [by apply M_Alt_r | done].
  - intros (xs & rest & -> & Hne & Hxs & Hk)%plus_loop_inv.
    exists xs, rest, []. rewrite app_nil_r.
    split; [done|]. split; [by constructor | done].
  - intros (xs & rest & c & -> & Hm & Hk)%IH.
    rewrite take_captured in Hk.
    exists xs, rest, (c ++ [xs]). rewrite app_assoc.
    split; [done|]. split; [by constructor | done].
  - destruct (at_end s) eqn:Hend; [|done].
    intros Hk. exists [], s, []. rewrite app_nil_r. split; [done|].
    split; [|done]. constructor. by apply at_end_spec.
Qed.

Lemma matches_Cat_inv r1 r2 xs rest caps :
  matches (Cat r1 r2) xs rest caps ->
  exists x1 x2 c1 c2,
    xs = x1 ++ x2 /\ caps = c1 ++ c2 /\
    matches r1 x1 (x2 ++ rest) c1 /\ matches r2 x2 rest c2.
Proof. inversion 1; subst. by eexists _, _, _, _. Qed.

Lemma matches_Alt_inv r1 r2 xs rest caps :
  matches (Alt r1 r2) xs rest caps ->
  matches r1 xs rest caps \/ matches r2 xs rest caps.
Proof. inversion 1; subst; [by left | by right]. Qed.

Lemma matches_Chr_inv c xs rest caps :
  matches (Chr c) xs rest caps -> xs = [c] /\ caps = [].
Proof. by inversion 1. Qed.

Lemma matches_Cls_inv p xs rest caps :
  matches (Cls p) xs rest caps ->
  exists c, xs = [c] /\ p c = true /\ caps = [].
Proof. inversion 1; subst. by eexists. Qed.

Lemma matches_Grp_Plus_inv p xs rest caps :
  matches (Grp (Plus p)) xs rest caps ->
  xs <> [] /\ Forall (fun c => p c = true) xs /\ caps = [xs].
Proof.
  inversion 1 as [| | | | | | |r xs' rest' c Hm|]; subst.
  by inversion Hm; subst.
Qed.

Lemma matches_Grp_inv r xs rest caps :
  matches (Grp r) xs rest caps ->
  exists c, matches r xs rest c /\ caps = c ++ [xs].
Proof. inversion 1; subst. by eexists. Qed.

Lemma matches_Eol_inv xs rest caps :
  matches Eol xs rest caps ->
  xs = [] /\ caps = [] /\ (rest = [] \/ rest = [10]).
Proof. by inversion 1. Qed.

Lemma matches_Str l xs rest caps :
  matches (Str l) xs rest caps -> xs = l /\ caps = [].
Proof.
  revert xs rest caps. induction l as [|c l IH]; intros xs rest caps; simpl.
  - by inversion 1.
  - intros (x1 & x2 & c1 & c2 & -> & -> & [-> ->]%matches_Chr_inv
            & [-> ->]%IH)%matches_Cat_inv.
    done.
Qed.

Lemma matches_Rep_Cls n p xs rest caps :
  matches (Rep n (Cls p)) xs rest caps ->
  length xs = n /\ Forall (fun c => p c = true) xs /\ caps = [].
Proof.
  revert xs rest caps. induction n as [|n IH]; intros xs rest caps; simpl.
  - by inversion 1.
  - intros (x1 & x2 & c1 & c2 & -> & -> & (c & -> & Hc & ->)%matches_Cls_inv
            & (<- & Hall & ->)%IH)%matches_Cat_inv.
    split; [done|]. split; [by constructor | done].
Qed.

Lemma other_than_neq x s :
  Forall (fun c => other_than x c = true) s -> Forall (fun c => c <> x) s.
Proof.
  intros H. eapply Forall_impl; [exact H|].
  intros c Hc. by apply negb_true_iff, N.eqb_neq in Hc.
Qed.

(** What the pattern matches is an accepted name. *)
Lemma matches_pattern xs rest caps :
  matches pattern xs rest caps ->
  exists d p f a m,
    caps = [d; p; f; a; m] /\ accepted (xs ++ rest) d p f a m rest.
Proof.
  unfold pattern.
  intros (x0 & ? & ? & ? & -> & -> & [-> ->]%matches_Str & H)%matches_Cat_inv.
  apply matches_Cat_inv in H
    as (d & ? & ? & ? & -> & -> & (? & (Hd8 & Hd & ->)%matches_Rep_Cls & ->)
          %matches_Grp_inv & H).
  apply matches_Cat_inv in H
    as (? & ? & ? & ? & -> & -> & [-> ->]%matches_Chr_inv & H).
  apply matches_Cat_inv in H
    as (p & ? & ? & ? & -> & -> & (Hp0 & Hp & ->)%matches_Grp_Plus_inv & H).
  apply matches_Cat_inv in H
    as (? & ? & ? & ? & -> & -> & [-> ->]%matches_Chr_inv & H).
  apply matches_Cat_inv in H
    as (f & ? & ? & ? & -> & -> & (Hf0 & Hf & ->)%matches_Grp_Plus_inv & H).
  apply matches_Cat_inv in H
    as (? & ? & ? & ? & -> & -> & [-> ->]%matches_Chr_inv & H).
  apply matches_Cat_inv in H
    as (a & ? & ? & ? & -> & -> & (Ha0 & Ha & ->)%matches_Grp_Plus_inv & H).
  apply matches_Cat_inv in H
    as (? & ? & ? & ? & -> & -> & [-> ->]%matches_Chr_inv & H).
  apply matches_Cat_inv in H
    as (m & ? & ? & ? & -> & -> & (Hm0 & Hm & ->)%matches_Grp_Plus_inv & H).
  apply matches_Cat_inv in H
    as (? & ? & ? & ? & -> & -> & [-> ->]%matches_Str
          & (-> & -> & Hrest)%matches_Eol_inv).
  exists d, p, f, a, m. split; [done|].
  split; try done.
  - rewrite app_nil_r, <- !app_assoc. done.
  - split; [done | by apply other_than_neq].
  - split; [done | by apply other_than_neq].
Qed.

Lemma pattern_accepted_inv name gs rest :
  rmatch pattern name = Some (gs, rest) ->
  exists d p f a m, gs = [d; p; f; a; m] /\ accepted name d p f a m rest.
Proof.
  unfold rmatch.
  intros (xs & rest' & caps & -> & Hm & [= <- <-])%exec_sound.
  by apply matches_pattern.
Qed.

(** The names the parser accepts, exactly: the accepted names whose
    eight digits [strptime] accepts. *)
Lemma parse_archive_filename_exact name info :
  parse_archive_filename name = Some info <->
  filename info = name /\
  is_Some (strptime (date_str info)) /\
  exists rest,
    accepted name (date_str info) (post_id info) (floor_number info)
      (author_id info) (encryption_method info) rest.
Proof.
  unfold parse_archive_filename. split.
  - destruct (rmatch pattern name) as [[gs rest]|] eqn:Hm; [|done].
    apply pattern_accepted_inv in Hm as (d & p & f & a & m & -> & Hacc).
    destruct (strptime d) eqn:Hd; [|done]. intros [= <-]. simpl.
    split; [done|]. split; [by rewrite Hd | by exists rest].
  - destruct info as [n d p f a m]. simpl.
    intros (-> & [dt Hd] & rest & Hacc).
    by rewrite (pattern_accepted _ _ _ _ _ _ _ Hacc), Hd.
Qed.

Lemma range_inv lo hi c : range lo hi c = true -> lo <= c <= hi.
Proof.
  unfold range. intros [H1 H2]%andb_true_iff.
  split; by apply N.leb_le.
Qed.

Lemma matches_two r1 r2 xs rest caps :
  matches (Cat r1 r2) xs rest caps ->
  (forall x r c, matches r1 x r c -> exists a, x = [a] /\ c = []) ->
  (forall x r c, matches r2 x r c -> exists b, x = [b] /\ c = []) ->
  exists a b,
    xs = [a; b] /\ caps = [] /\
    matches r1 [a] ([b] ++ rest) [] /\ matches r2 [b] rest [].
Proof.
  intros (x1 & x2 & c1 & c2 & -> & -> & H1 & H2)%matches_Cat_inv Hr1 Hr2.
  destruct (Hr1 _ _ _ H1) as (a & -> & ->).
  destruct (Hr2 _ _ _ H2) as (b & -> & ->).
  by exists a, b.
Qed.

Lemma matches_Chr_one c x r caps :
  matches (Chr c) x r caps -> exists a, x = [a] /\ caps = [].
Proof. intros [-> ->]%matches_Chr_inv. by eexists. Qed.

Lemma matches_Cls_one p x r caps :
  matches (Cls p) x r caps -> exists a, x = [a] /\ caps = [].
Proof. intros (c & -> & _ & ->)%matches_Cls_inv. by eexists. Qed.

(** The month group holds 10 to 12, 01 to 09, or one digit 1 to 9. *)
Lemma matches_month xs rest caps :
  matches month_regex xs rest caps ->
  caps = [] /\
  ((exists c, xs = [49; c] /\ 48 <= c <= 50) \/
   (exists c, xs = [48; c] /\ 49 <= c <= 57) \/
   (exists c, xs = [c] /\ 49 <= c <= 57)).
Proof.
  unfold month_regex.
  intros [H|[H|H]%matches_Alt_inv]%matches_Alt_inv.
  - apply matches_two in H as (a & b & -> & -> & Ha & Hb);
      [|apply matches_Chr_one|apply matches_Cls_one].
    apply matches_Chr_inv in Ha as [[= ->] _].
    apply matches_Cls_inv in Hb as (c & [= <-] & Hc%range_inv & _).
    split; [done|]. left. by exists b.
  - apply matches_two in H as (a & b & -> & -> & Ha & Hb);
      [|apply matches_Chr_one|apply matches_Cls_one].
    apply matches_Chr_inv in Ha as [[= ->] _].
    apply matches_Cls_inv in Hb as (c & [= <-] & Hc%range_inv & _).
    split; [done|]. right; left. by exists b.
  - apply matches_Cls_inv in H as (c & -> & Hc%range_inv & ->).
    split; [done|]. right; right. by exists c.
Qed.

(** The day group holds 30 or 31, a 1 or a 2 and a decimal digit, 01 to
    09, one digit 1 to 9, or a blank and a digit 1 to 9. *)
Lemma matches_day xs rest caps :
  matches day_regex xs rest caps ->
  caps = [] /\
  ((exists c, xs = [51; c] /\ 48 <= c <= 49) \/
   (exists c1 c2, xs = [c1; c2] /\ 49 <= c1 <= 50 /\ digit c2 = true) \/
   (exists c, xs = [48; c] /\ 49 <= c <= 57) \/
   (exists c, xs = [c] /\ 49 <= c <= 57) \/
   (exists c, xs = [32; c] /\ 49 <= c <= 57)).
Proof.
  unfold day_regex.
  intros [H|[H|[H|[H|H]%matches_Alt_inv]%matches_Alt_inv]%matches_Alt_inv]
    %matches_Alt_inv.
  - apply matches_two in H as (a & b & -> & -> & Ha & Hb);
      [|apply matches_Chr_one|apply matches_Cls_one].
    apply matches_Chr_inv in Ha as [[= ->] _].
    apply matches_Cls_inv in Hb as (c & [= <-] & Hc%range_inv & _).
    split; [done|]. left. by exists b.
  - apply matches_two in H as (a & b & -> & -> & Ha & Hb);
      [|apply matches_Cls_one|apply matches_Cls_one].
    apply matches_Cls_inv in Ha as (c1 & [= <-] & Hc1%range_inv & _).
    apply matches_Cls_inv in Hb as (c2 & [= <-] & Hc2 & _).
    split; [done|]. right; left. by exists a, b.
  - apply matches_two in H as (a & b & -> & -> & Ha & Hb);
      [|apply matches_Chr_one|apply matches_Cls_one].
    apply matches_Chr_inv in Ha as [[= ->] _].
    apply matches_Cls_inv in Hb as (c & [= <-] & Hc%range_inv & _).
    split; [done|]. right; right; left. by exists b.
  - apply matches_Cls_inv in H as (c & -> & Hc%range_inv & ->).
    split; [done|]. right; right; right; left. by exists c.
  - apply matches_two in H as (a & b & -> & -> & Ha & Hb);
      [|apply matches_Chr_one|apply matches_Cls_one].
    apply matches_Chr_inv in Ha as [[= ->] _].
    apply matches_Cls_inv in Hb as (c & [= <-] & Hc%range_inv & _).
    split; [done|]. right; right; right; right. by exists b.
Qed.

(** Eight digits that [strptime] accepts name a day of the calendar. *)
Lemma strptime_digits_inv d dt :
  length d = 8%nat -> Forall Spec.is_digit d ->
  strptime d = Some dt ->
  Spec.real_date d /\
  dt = Date (Spec.year_of d) (Spec.month_of d) (Spec.day_of d).
Proof.
  intros Hlen Hd. unfold strptime.
  destruct (rmatch format_regex d) as [[gs rest]|] eqn:Hm; [|done].
  unfold rmatch in Hm.
  apply exec_sound in Hm as (xs & rest' & caps & -> & Hm & [= <- <-]).
  unfold format_regex in Hm.
  apply matches_Cat_inv in Hm
    as (y & ? & ? & ? & -> & -> & (? & (Hy4 & _ & ->)%matches_Rep_Cls & ->)
          %matches_Grp_inv & Hm).
  apply matches_Cat_inv in Hm
    as (mm & dd & ? & ? & -> & -> & (? & [-> Hmm]%matches_month & ->)
          %matches_Grp_inv & (? & [-> Hdd]%matches_day & ->)%matches_Grp_inv).
  cbn [app]. destruct rest' as [|? ?]; [|done]. rewrite app_nil_r in *.
  do 5 (destruct y as [|? y]; try discriminate Hy4).
  rewrite !length_app in Hlen. cbn [length] in Hlen.
  destruct Hmm as [(c & -> & Hc)|[(c & -> & Hc)|(c & -> & Hc)]];
  destruct Hdd as [(c' & -> & Hc')|[(c1 & c2 & -> & Hc1 & Hc2)
                  |[(c' & -> & Hc')|[(c' & -> & Hc')|(c' & -> & Hc')]]]];
    try discriminate Hlen; cbn [app] in Hd |- *;
    repeat match goal with
           | H : Forall _ (_ :: _) |- _ => apply Forall_cons in H as [? H]
           end;
    try (exfalso; unfold Spec.is_digit in *; lia);
    (rewrite !int_digits by (try done; all_digits));
    (destruct (valid_date _ _ _) eqn:Hv; [|done]);
    intros [= <-]; (split; [|done]);
    unfold valid_date in Hv;
    repeat (apply andb_true_iff in Hv as [Hv ?]);
    repeat match goal with
           | H : (_ <=? _) = true |- _ => apply N.leb_le in H
           end;
    unfold Spec.real_date, Spec.year_of, Spec.month_of, Spec.day_of;
    cbn [take drop]; done.
Qed.

(** ** The filename parser *)

Lemma parse_on_grammar name d p f a m :
  Spec.grammar name d p f a m ->
  Spec.real_date d ->
  parse_archive_filename name
  = Some {| filename := name; date_str := d; post_id := p;
            floor_number := f; author_id := a; encryption_method := m |}.
Proof.
  intros Hg Hreal.
  pose proof (Spec.date_digits _ _ _ _ _ _ Hg) as [Hlen Hd].
  unfold parse_archive_filename.
  rewrite (pattern_on_grammar _ _ _ _ _ _ Hg).
  by rewrite (strptime_real_date d Hlen Hd Hreal).
Qed.

(** No record means that the name is not of the grammar or that its
    date is not real; and the parser, a total function, raises on no
    input. *)
Lemma parse_none_sound name d p f a m :
  parse_archive_filename name = None ->
  Spec.grammar name d p f a m -> ~ Spec.real_date d.
Proof.
  intros Hnone Hg Hreal.
  rewrite (parse_on_grammar _ _ _ _ _ _ Hg Hreal) in Hnone. discriminate.
Qed.

(** Without a final newline and with digits from '0' to '9', what the
    parser accepts is a name of the grammar with a real date. *)
Lemma parse_some_grammar name info :
  parse_archive_filename name = Some info ->
  last name <> Some 10 ->
  Forall Spec.is_digit (date_str info ++ post_id info ++ floor_number info) ->
  Spec.grammar name (date_str info) (post_id info) (floor_number info)
    (author_id info) (encryption_method info) /\
  Spec.real_date (date_str info).
Proof.
  intros (_ & [dt Hdt] & rest & [Hname Hrest [Hd8 _] [Hp0 _] [Hf0 _] Ha Hm])
    %parse_archive_filename_exact Hlast Hdigits.
  apply Forall_app in Hdigits as [Hd [Hp Hf]%Forall_app].
  assert (rest = []) as ->.
  { destruct Hrest as [-> | ->]; [done|]. exfalso. apply Hlast.
    rewrite Hname, !app_assoc. apply last_snoc. }
  rewrite app_nil_r in Hname.
  split; [by split|].
  by apply (strptime_digits_inv _ dt).
Qed.

(** The impossible dates of the specification are turned down. *)
Lemma parse_impossible_dates :
  parse_archive_filename «"chalaoshi_csv20250231_1_1_a_sha256.zip"» = None /\
  parse_archive_filename «"chalaoshi_csv99999999_1_1_a_sha256.zip"» = None /\
  parse_archive_filename «"chalaoshi_csv20251301_1_1_a_sha256.zip"» = None /\
  parse_archive_filename «"not_a_valid_archive.zip"» = None.
Proof. by vm_compute. Qed.

(** From the year 1000 on, the 'date_formatted' entry of a name of the
    grammar with a real date is YYYYMMDD with two hyphens put in. *)
Lemma parse_date_formatted_from_1000 name d p f a m :
  Spec.grammar name d p f a m ->
  Spec.real_date d ->
  1000 <= Spec.year_of d ->
  let info := {| filename := name; date_str := d; post_id := p;
                 floor_number := f; author_id := a;
                 encryption_method := m |} in
  exists fields,
    parse_archive_filename name = Some info /\
    to_dict info = Some fields /\
    dict_get «"date_formatted"» fields = Some (JStr (Spec.hyphenated d)).
Proof.
  intros Hg Hreal Hyear info.
  pose proof (Spec.date_digits _ _ _ _ _ _ Hg) as [Hlen Hd].
  pose proof (strptime_real_date d Hlen Hd Hreal) as Hp.
  rewrite (parse_on_grammar _ _ _ _ _ _ Hg Hreal).
  unfold to_dict, date_of. cbn [date_str info]. rewrite Hp.
  eexists. split; [reflexivity|]. split; [reflexivity|].
  rewrite strftime_real_date by assumption. reflexivity.
Qed.

(** C5.  The name chalaoshi_csv09990101_1_1_a_sha256.zip is of the
    grammar and 09990101 names a day of the calendar, the first of
    January 999; it is parsed, and the 'date_formatted' entry of the
    record's dict is "999-01-01", which is not YYYYMMDD rewritten as
    YYYY-MM-DD, "0999-01-01": the year has lost its leading zero. *)
Theorem parse_date_short_year :
  Spec.grammar Sample.short_year_name
    «"09990101"» «"1"» «"1"» «"a"» «"sha256"» /\
  Spec.real_date «"09990101"» /\
  Spec.hyphenated «"09990101"» = «"0999-01-01"» /\
  exists info fields,
    parse_archive_filename Sample.short_year_name = Some info /\
    date_str info = «"09990101"» /\
    to_dict info = Some fields /\
    dict_get «"date_formatted"» fields = Some (JStr «"999-01-01"») /\
    «"999-01-01"» <> Spec.hyphenated «"09990101"».
Proof.
  split; [|split; [|split]].
  - split; [reflexivity | split; [by vm_compute | each_char]..].
  - by vm_compute.
  - reflexivity.
  - eexists _, _. split; [by vm_compute|]. split; [reflexivity|].
    split; [by vm_compute|]. split; [reflexivity | by vm_compute].
Qed.

(** C3.  The scenario of the specification: the name
    chalaoshi_csv20250502_5399305_2696_26893D_sha256.zip is parsed, and
    the dict of the record holds "2025-05-02" under 'date_formatted',
    "5399305" under 'post_id', "2696" under 'floor_number', the author
    "26893D" after the two-character anonymity prefix under 'author_id',
    "sha256" under 'encryption_method' and "https://cc98.org/5399305/"
    under 'forum_url' (the specification writes these keys dateFormatted,
    postId, floorNumber, authorId, encryptionMethod, forumUrl). *)
Theorem parse_scenario :
  exists info fields,
    parse_archive_filename Sample.scenario_name = Some info /\
    to_dict info = Some fields /\
    dict_get «"date_formatted"» fields = Some (JStr «"2025-05-02"») /\
    dict_get «"post_id"» fields = Some (JStr «"5399305"») /\
    dict_get «"floor_number"» fields = Some (JStr «"2696"») /\
    dict_get «"author_id"» fields
      = Some (JStr ([21311; 21517] ++ «"26893D"»)) /\
    dict_get «"encryption_method"» fields = Some (JStr «"sha256"») /\
    dict_get «"forum_url"» fields = Some (JStr «"https://cc98.org/5399305/"»).
Proof.
  eexists. eexists. split; [by vm_compute|].
  split; [by vm_compute|]. by vm_compute.
Qed.

(** Every name of the grammar ends with the letter p of .zip. *)
Lemma grammar_last name : Spec.matches_grammar name -> last name = Some 112.
Proof.
  intros (d & p & f & a & m & [-> _ _ _ _ _]).
  change «".zip"» with ([46; 122; 105] ++ [112]).
  rewrite !app_assoc. apply last_snoc.
Qed.

(** In a name of the grammar the post id starts right after the prefix,
    the eight digits and an underscore, with a digit. *)
Lemma grammar_post_digit name :
  Spec.matches_grammar name ->
  exists c, name !! 22%nat = Some c /\ Spec.is_digit c.
Proof.
  intros (d & p & f & a & m & [-> [Hlen _] [Hp0 Hp] _ _ _]).
  do 9 (destruct d as [|? d]; try discriminate Hlen).
  destruct p as [|c p]; [done|].
  exists c. split; [reflexivity|]. by apply Forall_inv in Hp.
Qed.

(** C4.  The parser returns a record for a name that is not of the
    grammar: a name of the grammar followed by a newline is parsed, the
    newline kept in the record's file name, because [$] also matches just
    before a final newline.  The same happens with a decimal digit that
    is not one of '0' to '9', which [\d] accepts. *)
Theorem parse_accepts_beyond_grammar :
  (parse_archive_filename Sample.newline_name
   = Some {| filename := Sample.newline_name; date_str := «"20250502"»;
             post_id := «"1"»; floor_number := «"1"»; author_id := «"a"»;
             encryption_method := «"sha256"» |} /\
   ~ Spec.matches_grammar Sample.newline_name) /\
  (parse_archive_filename Sample.wide_digit_name
   = Some {| filename := Sample.wide_digit_name; date_str := «"20250502"»;
             post_id := [65297]; floor_number := «"1"»; author_id := «"a"»;
             encryption_method := «"sha256"» |} /\
   ~ Spec.matches_grammar Sample.wide_digit_name).
Proof.
  split; (split; [by vm_compute|]); intros H.
  - apply grammar_last in H. vm_compute in H. discriminate.
  - apply grammar_post_digit in H as (c & Hc & Hlo & Hhi).
    vm_compute in Hc. injection Hc as <-. by vm_compute in Hhi.
Qed.


(** ** The store: what a successful call did *)

Lemma bind_inr {A B} (m : io A) (k : A -> io B) disk r disk' :
  (m ≫= k) disk = (inr r, disk') ->
  exists x disk1, m disk = (inr x, disk1) /\ k x disk1 = (inr r, disk').
Proof.
  unfold mbind, io_bind. destruct (m disk) as [[ex|x] disk1]; [done|].
  intros H. by exists x, disk1.
Qed.

Lemma lift_inr {A} (x : exn + A) disk r disk' :
  lift x disk = (inr r, disk') -> x = inr r /\ disk' = disk.
Proof. unfold lift. intros [= -> ->]. done. Qed.

Lemma load_existing_disk e disk r disk' :
  load_existing e disk = (r, disk') -> disk' = disk.
Proof.
  unfold load_existing, mbind, io_bind, path_exists, try_except, read_json,
    mret, io_ret.
  destruct disk, (read_fails e); simpl; by intros [= _ <-].
Qed.

(** With a file that can be opened, what is loaded is the store's list
    of records whenever it is a list. *)
Lemma load_existing_entries e disk items disk' :
  read_fails e = false ->
  load_existing e disk = (inr (JArr items), disk') ->
  items = entries disk.
Proof.
  unfold load_existing, mbind, io_bind, path_exists, try_except, read_json,
    mret, io_ret.
  intros ->. destruct disk; simpl; intros [= H]; by subst.
Qed.

Lemma find_record_list name existing_data at_ :
  find_record name existing_data = inr at_ ->
  forall record data',
    put existing_data at_ record = inr data' ->
    exists items,
      existing_data = JArr items /\ scan name items 0 = inr at_ /\
      data' = JArr (place items at_ record).
Proof.
  intros Hfind record data' Hput.
  destruct existing_data as [| | | [|] | items | [|] ]; simpl in Hfind;
    try discriminate;
    try (injection Hfind as <-; simpl in Hput; discriminate).
  exists items. split; [done|]. split; [done|].
  destruct at_; simpl in Hput; by injection Hput as <-.
Qed.

Lemma write_json_inr e v disk r disk' :
  write_json e v disk = (inr r, disk') ->
  write_fault e = NoFault /\ disk' = Document v.
Proof. unfold write_json. destruct (write_fault e); intros [= <-]; done. Qed.

(** A call that returns [True] found the record's place in a list and
    wrote the list with the record put there. *)
Lemma save_archive_info_true e a disk disk' :
  save_archive_info e a disk = (Returns true, disk') ->
  exists items at_ record,
    load_existing e disk = (inr (JArr items), disk) /\
    scan (filename a) items 0 = inr at_ /\
    stored e a = Some record /\
    disk' = Document (JArr (place items at_ record)).
Proof.
  unfold save_archive_info. destruct (mkdir_fails e); [done|].
  destruct (save_archive_info_body e a disk) as [[ex|[]] disk1] eqn:Hbody;
    [done|].
  intros [= <-]. unfold save_archive_info_body in Hbody.
  apply bind_inr in Hbody as (data & disk2 & Hload & Hbody).
  pose proof (load_existing_disk _ _ _ _ Hload) as ->.
  apply bind_inr in Hbody as (at_ & disk3 & Hfind & Hbody).
  apply lift_inr in Hfind as [Hfind ->].
  apply bind_inr in Hbody as (d & disk4 & Hdict & Hbody).
  apply lift_inr in Hdict as [Hdict ->].
  apply bind_inr in Hbody as (data' & disk5 & Hput & Hbody).
  apply lift_inr in Hput as [Hput ->].
  apply write_json_inr in Hbody as [_ ->].
  destruct (find_record_list _ _ _ Hfind _ _ Hput) as (items & -> & Hscan & ->).
  exists items, at_. eexists. split; [exact Hload|]. split; [exact Hscan|].
  unfold stored. destruct (to_dict a); [|done].
  simpl in Hdict. injection Hdict as <-. done.
Qed.

Lemma upsert_inv e a disk disk' :
  upsert e a disk disk' ->
  exists at_ record,
    scan (filename a) (entries disk) 0 = inr at_ /\
    stored e a = Some record /\
    disk' = Document (JArr (place (entries disk) at_ record)).
Proof.
  intros [Hread Hsave].
  apply save_archive_info_true in Hsave as (items & at_ & record & Hload & ?).
  apply load_existing_entries in Hload as ->; [|done].
  by exists at_, record.
Qed.

(** ** Dicts *)

Lemma dict_get_set_eq key v d : dict_get key (dict_set key v d) = Some v.
Proof.
  induction d as [|[k w] d IH]; simpl.
  - by rewrite bool_decide_eq_true_2.
  - destruct (bool_decide (k = key)) eqn:E; simpl; rewrite E; [done|exact IH].
Qed.

Lemma dict_get_set_ne key key' v d :
  key <> key' -> dict_get key (dict_set key' v d) = dict_get key d.
Proof.
  intros Hne. induction d as [|[k w] d IH]; simpl.
  - by rewrite bool_decide_eq_false_2.
  - destruct (bool_decide (k = key')) eqn:E; simpl.
    + apply bool_decide_eq_true_1 in E as ->.
      by rewrite bool_decide_eq_false_2.
    + by rewrite IH.
Qed.

Lemma to_dict_filename a d :
  to_dict a = Some d -> dict_get «"filename"» d = Some (JStr (filename a)).
Proof.
  unfold to_dict. destruct (date_of a); [|done]. by intros [= <-].
Qed.

(** ** The scan for a file name *)

Lemma named_true name record :
  named name record = true <-> names name record = inr true.
Proof.
  unfold named. destruct (names name record) as [|[]]; split; congruence.
Qed.

(** An object named [name] is named by no other name. *)
Lemma named_other name g record :
  named name record = true -> named g record = bool_decide (name = g).
Proof.
  unfold named, names. destruct record as [| | | | |d]; try done.
  unfold eq_str. destruct (dict_get _ d) as [[| | |t| |]|]; try done.
  by intros ->%bool_decide_eq_true_1.
Qed.

Lemma stored_named e a record g :
  stored e a = Some record -> named g record = bool_decide (filename a = g).
Proof.
  unfold stored. destruct (to_dict a) as [d|] eqn:Hd; [|done].
  intros [= <-]. unfold named, names.
  rewrite dict_get_set_ne by done.
  by rewrite (to_dict_filename _ _ Hd).
Qed.

Lemma scan_found name items k i :
  scan name items k = inr (Some i) ->
  exists j old,
    i = (k + j)%nat /\ items !! j = Some old /\ named name old = true /\
    forall j' y, (j' < j)%nat -> items !! j' = Some y -> named name y = false.
Proof.
  revert k. induction items as [|x items IH]; intros k; simpl; [done|].
  destruct (names name x) as [ex|[]] eqn:Hx; [done| |].
  - intros [= <-]. exists 0%nat, x. split; [lia|]. split; [done|].
    split; [by apply named_true|]. intros; lia.
  - intros (j & old & -> & Hj & Hold & Hbefore)%IH.
    exists (S j), old. split; [lia|]. split; [done|]. split; [done|].
    intros [|j'] y Hlt Hy; simpl in Hy.
    + injection Hy as <-. unfold named. by rewrite Hx.
    + apply (Hbefore j'); [lia | done].
Qed.

Lemma scan_absent name items k :
  scan name items k = inr None -> count_named name items = 0%nat.
Proof.
  revert k. induction items as [|x items IH]; intros k; simpl; [done|].
  unfold named. destruct (names name x) as [ex|[]] eqn:Hx; [done..|].
  intros H%IH. by rewrite H.
Qed.

Lemma count_named_app name xs ys :
  count_named name (xs ++ ys)
  = (count_named name xs + count_named name ys)%nat.
Proof. induction xs as [|x xs IH]; simpl; [done|]. rewrite IH. lia. Qed.

Lemma count_named_insert g items i old new :
  items !! i = Some old -> named g new = named g old ->
  count_named g (<[i := new]> items) = count_named g items.
Proof.
  revert i. induction items as [|x items IH]; intros [|i]; simpl; try done.
  - by intros [= ->] ->.
  - intros Hi Hn. by rewrite (IH i).
Qed.

Lemma count_named_pos name items i old :
  items !! i = Some old -> named name old = true ->
  (1 <= count_named name items)%nat.
Proof.
  revert i. induction items as [|x items IH]; intros [|i]; simpl; try done.
  - intros [= ->] ->. lia.
  - intros Hi Hn. specialize (IH i Hi Hn). lia.
Qed.

(** How an upsert changes the number of records of each name: one more
    of the record's name when it was appended, and nothing else. *)
Lemma place_counts name items at_ record g :
  scan name items 0 = inr at_ ->
  (forall g, named g record = bool_decide (name = g)) ->
  count_named g (place items at_ record)
  = (count_named g items
     + match at_ with
       | Some _ => 0
       | None => if bool_decide (name = g) then 1 else 0
       end)%nat.
Proof.
  intros Hscan Hrec. destruct at_ as [i|]; simpl.
  - apply scan_found in Hscan as (j & old & -> & Hj & Hold & _). simpl.
    rewrite (count_named_insert g items j old) by
      (try done; by rewrite Hrec, (named_other name g old)).
    lia.
  - rewrite count_named_app. simpl. rewrite Hrec. lia.
Qed.

Lemma scan_shift name items k :
  scan name items k
  = match scan name items 0 with
    | inl ex => inl ex
    | inr found => inr ((fun i => (k + i)%nat) <$> found)
    end.
Proof.
  revert k. induction items as [|x items IH]; intros k; simpl; [done|].
  destruct (names name x) as [ex|[]]; [done| |].
  - simpl. do 3 f_equal. lia.
  - rewrite (IH (S k)), (IH 1%nat).
    destruct (scan name items 0) as [ex|[i|]]; simpl; [done| |done].
    do 3 f_equal. lia.
Qed.

(** After the record went to its place, the scan finds it there. *)
Lemma scan_place name items at_ record :
  scan name items 0 = inr at_ ->
  names name record = inr true ->
  exists j,
    scan name (place items at_ record) 0 = inr (Some j) /\
    place items at_ record !! j = Some record /\
    match at_ with
    | Some i => i = j
    | None => j = length items
    end.
Proof.
  intros Hscan Hrec. revert at_ Hscan.
  induction items as [|x items IH]; intros at_; simpl.
  - intros [= <-]. simpl. rewrite Hrec. by exists 0%nat.
  - destruct (names name x) as [ex|[]] eqn:Hx; [done| |].
    + intros [= <-]. simpl. rewrite Hrec. by exists 0%nat.
    + rewrite scan_shift.
      destruct (scan name items 0) as [ex|found] eqn:Hfound; [done|].
      intros [= <-]. destruct (IH found eq_refl) as (j & Hs & Hl & Hat).
      exists (S j). destruct found as [i|]; simpl in *.
      * rewrite Hx, scan_shift, Hs. split; [done|]. split; [done | lia].
      * rewrite Hx, scan_shift, Hs. split; [done|]. split; [done | lia].
Qed.

(** ** The store: order and place *)

Lemma upsert_entries e a disk disk' :
  upsert e a disk disk' ->
  exists at_ record,
    scan (filename a) (entries disk) 0 = inr at_ /\
    stored e a = Some record /\
    entries disk' = place (entries disk) at_ record.
Proof.
  intros (at_ & record & Hscan & Hst & ->)%upsert_inv. by exists at_, record.
Qed.

Lemma stored_names e a record :
  stored e a = Some record -> names (filename a) record = inr true.
Proof.
  intros H. apply named_true. rewrite (stored_named _ _ _ _ H).
  by apply bool_decide_eq_true_2.
Qed.

(** C6.  An upsert leaves the records that were there in their order: the
    new list is the old one with the record put over the first record of
    its name, or with the record added at the end when no record has its
    name; a record of another name stays where it was, unmodified.  In
    particular two upserts of records with distinct names into a store
    without records leave the two records, the first one first. *)
Theorem upsert_keeps_order :
  (forall e a disk disk',
     upsert e a disk disk' ->
     exists record,
       stored e a = Some record /\
       ((exists i old,
           entries disk !! i = Some old /\ named (filename a) old = true /\
           entries disk' = <[i := record]> (entries disk))
        \/ (count_named (filename a) (entries disk) = 0%nat /\
            entries disk' = entries disk ++ [record])) /\
       (count_named (filename a) (entries disk) = 0%nat ->
        entries disk' = entries disk ++ [record]) /\
       (forall j old,
           entries disk !! j = Some old -> named (filename a) old = false ->
           entries disk' !! j = Some old)) /\
  (forall e1 e2 a1 a2 disk disk1 disk2,
     entries disk = [] -> filename a1 <> filename a2 ->
     upsert e1 a1 disk disk1 -> upsert e2 a2 disk1 disk2 ->
     exists r1 r2,
       stored e1 a1 = Some r1 /\ stored e2 a2 = Some r2 /\
       disk2 = Document (JArr [r1; r2])).
Proof.
  split.
  - intros e a disk disk' (at_ & record & Hscan & Hst & ->)%upsert_entries.
    exists record. split; [done|].
    destruct at_ as [i|]; simpl.
    + apply scan_found in Hscan as (j & old & -> & Hj & Hold & _). simpl.
      split; [left; by exists j, old|]. split.
      * intros H0. pose proof (count_named_pos _ _ _ _ Hj Hold). lia.
      * intros j' y Hj' Hy. rewrite list_lookup_insert_ne; [done|].
        intros <-. congruence.
    + split; [right; split; [by eapply scan_absent | done]|].
      split; [done|]. intros j old Hj _. by apply lookup_app_l_Some.
  - intros e1 e2 a1 a2 disk disk1 disk2 Hempty Hne H1 H2.
    apply upsert_inv in H1 as (at1 & r1 & Hscan1 & Hst1 & ->).
    apply upsert_inv in H2 as (at2 & r2 & Hscan2 & Hst2 & ->).
    exists r1, r2. split; [done|]. split; [done|].
    rewrite Hempty in Hscan1. simpl in Hscan1. injection Hscan1 as <-.
    rewrite Hempty in Hscan2 |- *. cbn [entries place app] in Hscan2 |- *.
    destruct at2 as [i|]; [|done].
    apply scan_found in Hscan2 as (j & old & _ & Hj & Hold & _).
    destruct j; [|done]. injection Hj as <-.
    rewrite (stored_named _ _ _ _ Hst1) in Hold.
    by apply bool_decide_eq_true_1 in Hold.
Qed.

Lemma upsert_keeps_order_witness :
  (exists record,
     stored Sample.sound Sample.archive = Some record /\
     ((exists i old,
         entries Sample.one_record !! i = Some old /\
         named Sample.scenario_name old = true /\
         entries (save_archive_info Sample.sound Sample.archive
                    Sample.one_record).2
         = <[i := record]> (entries Sample.one_record))
      \/ (count_named Sample.scenario_name (entries Sample.one_record) = 0%nat /\
          entries (save_archive_info Sample.sound Sample.archive
                     Sample.one_record).2
          = entries Sample.one_record ++ [record])) /\
     (count_named Sample.scenario_name (entries Sample.one_record) = 0%nat ->
      entries (save_archive_info Sample.sound Sample.archive
                 Sample.one_record).2
      = entries Sample.one_record ++ [record]) /\
     (forall j old,
         entries Sample.one_record !! j = Some old ->
         named Sample.scenario_name old = false ->
         entries (save_archive_info Sample.sound Sample.archive
                    Sample.one_record).2 !! j = Some old)) /\
  (exists r1 r2,
     stored Sample.sound Sample.leap_archive = Some r1 /\
     stored Sample.later Sample.archive = Some r2 /\
     (save_archive_info Sample.later Sample.archive
        (save_archive_info Sample.sound Sample.leap_archive Missing).2).2
     = Document (JArr [r1; r2])).
Proof.
  split.
  - apply (proj1 upsert_keeps_order Sample.sound Sample.archive
             Sample.one_record).
    split; [reflexivity | vm_compute; reflexivity].
  - apply (proj2 upsert_keeps_order Sample.sound Sample.later
             Sample.leap_archive Sample.archive Missing
             (save_archive_info Sample.sound Sample.leap_archive Missing).2).
    + reflexivity.
    + vm_compute. discriminate.
    + split; [reflexivity | vm_compute; reflexivity].
    + split; [reflexivity | vm_compute; reflexivity].
Defined.

(** ** The store: reading back *)

Lemma load_existing_document e v :
  read_fails e = false ->
  load_existing e (Document v) = (inr v, Document v).
Proof.
  intros H. unfold load_existing, mbind, io_bind, path_exists, try_except,
    read_json. by rewrite H.
Qed.

Lemma stored_keys e a written :
  stored e a = Some (JObj written) ->
  Forall (fun key => is_Some (dict_get key written)) persisted_keys.
Proof.
  unfold stored, to_dict. destruct (date_of a); [|done]. intros [= <-].
  repeat (apply List.Forall_cons; [by eexists|]). apply List.Forall_nil.
Qed.

(** What an upsert writes for a record. *)
Lemma stored_values e a written :
  stored e a = Some (JObj written) ->
  exists dt,
    date_of a = Some dt /\
    dict_get «"filename"» written = Some (JStr (filename a)) /\
    dict_get «"date_str"» written = Some (JStr (date_str a)) /\
    dict_get «"date_formatted"» written = Some (JStr (strftime dt)) /\
    dict_get «"post_id"» written = Some (JStr (post_id a)) /\
    dict_get «"floor_number"» written = Some (JStr (floor_number a)) /\
    dict_get «"author_id"» written = Some (JStr (anonymous ++ author_id a)) /\
    dict_get «"encryption_method"» written
      = Some (JStr (encryption_method a)) /\
    dict_get «"forum_url"» written = Some (JStr (forum_url a)) /\
    dict_get «"password_description"» written
      = Some (JStr (password_description a)) /\
    dict_get «"updated_at"» written = Some (JStr (now e)).
Proof.
  unfold stored, to_dict. destruct (date_of a) as [dt|]; [|done].
  intros [= <-]. by exists dt.
Qed.

(** C9.  After an upsert the store, loaded again from the file, holds at
    the place the scan for the record's file name finds one object, and
    under each persisted key ('filename', 'date_str', 'date_formatted',
    'post_id', 'floor_number', 'author_id', 'encryption_method',
    'forum_url', 'password_description', 'updated_at') that object holds
    the value that was written. *)
Theorem upsert_round_trip e a disk disk' e' :
  upsert e a disk disk' ->
  read_fails e' = false ->
  exists written items i back,
    stored e a = Some (JObj written) /\
    load_existing e' disk' = (inr (JArr items), disk') /\
    find_record (filename a) (JArr items) = inr (Some i) /\
    items !! i = Some (JObj back) /\
    Forall (fun key =>
              exists v, dict_get key written = Some v /\
                        dict_get key back = Some v) persisted_keys.
Proof.
  intros (at_ & record & Hscan & Hst & ->)%upsert_inv Hread.
  destruct (scan_place _ _ _ record Hscan (stored_names _ _ _ Hst))
    as (j & Hfound & Hj & _).
  assert (exists written, record = JObj written) as [written ->].
  { unfold stored in Hst. destruct (to_dict a); [|done].
    injection Hst as <-. by eexists. }
  exists written, (place (entries disk) at_ (JObj written)), j, written.
  split; [done|]. split; [by apply load_existing_document|].
  split; [done|]. split; [done|].
  eapply Forall_impl; [exact (stored_keys _ _ _ Hst)|].
  intros key [v Hv]. by exists v.
Qed.

Lemma upsert_round_trip_witness :
  exists written items i back,
    stored Sample.sound Sample.archive = Some (JObj written) /\
    load_existing Sample.later
      (save_archive_info Sample.sound Sample.archive Sample.one_record).2
    = (inr (JArr items),
       (save_archive_info Sample.sound Sample.archive Sample.one_record).2) /\
    find_record Sample.scenario_name (JArr items) = inr (Some i) /\
    items !! i = Some (JObj back) /\
    Forall (fun key =>
              exists v, dict_get key written = Some v /\
                        dict_get key back = Some v) persisted_keys.
Proof.
  apply (upsert_round_trip Sample.sound Sample.archive Sample.one_record
           (save_archive_info Sample.sound Sample.archive Sample.one_record).2
           Sample.later).
  - split; [reflexivity | vm_compute; reflexivity].
  - reflexivity.
Defined.

(** ** The store: one record for each file name *)

(** On a [str], the comparison of [_save_archive_info_dict] is the one
    of [save_archive_info]. *)
Lemma names_by_str name record :
  names_by (JStr name) record = names name record.
Proof.
  destruct record as [| | | | |d]; try done. simpl. unfold eq_str.
  by destruct (dict_get _ d) as [[]|].
Qed.

Lemma scan_by_str name items k :
  scan_by (JStr name) items k = scan name items k.
Proof.
  revert k. induction items as [|x items IH]; intros k; simpl; [done|].
  rewrite names_by_str. by destruct (names name x) as [|[]].
Qed.

Lemma find_record_by_str name existing_data :
  find_record_by (JStr name) existing_data = find_record name existing_data.
Proof. destruct existing_data; simpl; try done. apply scan_by_str. Qed.

Lemma find_record_by_list key existing_data at_ :
  find_record_by key existing_data = inr at_ ->
  forall record data',
    put existing_data at_ record = inr data' ->
    exists items,
      existing_data = JArr items /\ scan_by key items 0 = inr at_ /\
      data' = JArr (place items at_ record).
Proof.
  intros Hfind record data' Hput.
  destruct existing_data as [| | | [|] | items | [|] ]; simpl in Hfind;
    try discriminate;
    try (injection Hfind as <-; simpl in Hput; discriminate).
  exists items. split; [done|]. split; [done|].
  destruct at_; simpl in Hput; by injection Hput as <-.
Qed.

(** A value that is not a [str] is the 'filename' of no record that has
    a name. *)
Lemma names_by_other key record g :
  (forall name, key <> JStr name) ->
  names_by key record = inr true -> named g record = false.
Proof.
  intros Hkey. unfold named.
  destruct record as [| | | | |d]; try done. simpl. unfold eq_str.
  destruct (dict_get _ d) as [[| | |t| |]|]; try done.
  destruct key; try done. by destruct (Hkey s).
Qed.

Lemma scan_by_found key items k i :
  scan_by key items k = inr (Some i) ->
  exists j old,
    i = (k + j)%nat /\ items !! j = Some old /\ names_by key old = inr true.
Proof.
  revert k. induction items as [|x items IH]; intros k; simpl; [done|].
  destruct (names_by key x) as [ex|[]] eqn:Hx; [done| |].
  - intros [= <-]. exists 0%nat, x. split; [lia | done].
  - intros (j & old & -> & Hj & Hold)%IH.
    exists (S j), old. split; [lia | done].
Qed.

Lemma _save_archive_info_dict_true e d disk disk' :
  _save_archive_info_dict e d disk = (Returns true, disk') ->
  exists key items at_,
    dict_get «"filename"» d = Some key /\
    load_existing e disk = (inr (JArr items), disk) /\
    scan_by key items 0 = inr at_ /\
    disk' = Document (JArr (place items at_ (JObj d))).
Proof.
  unfold _save_archive_info_dict. destruct (mkdir_fails e); [done|].
  destruct (_save_archive_info_dict_body e d disk) as [[ex|[]] disk1]
    eqn:Hbody; [done|].
  intros [= <-]. unfold _save_archive_info_dict_body in Hbody.
  apply bind_inr in Hbody as (data & disk2 & Hload & Hbody).
  pose proof (load_existing_disk _ _ _ _ Hload) as ->.
  apply bind_inr in Hbody as (name & disk3 & Hname & Hbody).
  apply lift_inr in Hname as [Hname ->].
  apply bind_inr in Hbody as (at_ & disk4 & Hfind & Hbody).
  apply lift_inr in Hfind as [Hfind ->].
  apply bind_inr in Hbody as (data' & disk5 & Hput & Hbody).
  apply lift_inr in Hput as [Hput ->].
  apply write_json_inr in Hbody as [_ ->].
  destruct (find_record_by_list _ _ _ Hfind _ _ Hput)
    as (items & -> & Hscan & ->).
  exists name, items, at_. split; [|done].
  destruct (dict_get _ d); [|done]. by injection Hname as ->.
Qed.

Lemma upsert_dict_by e d disk disk' :
  upsert_dict e d disk disk' ->
  exists key at_,
    dict_get «"filename"» d = Some key /\
    scan_by key (entries disk) 0 = inr at_ /\
    entries disk' = place (entries disk) at_ (JObj d).
Proof.
  intros [Hread Hsave].
  apply _save_archive_info_dict_true in Hsave
    as (name & items & at_ & Hname & Hload & Hscan & ->).
  apply load_existing_entries in Hload as ->; [|done].
  by exists name, at_.
Qed.

Lemma upsert_dict_inv e d name disk disk' :
  upsert_dict e d disk disk' ->
  dict_get «"filename"» d = Some (JStr name) ->
  exists at_,
    scan name (entries disk) 0 = inr at_ /\
    entries disk' = place (entries disk) at_ (JObj d).
Proof.
  intros (key & at_ & Hkey & Hscan & Hplace)%upsert_dict_by Hname.
  rewrite Hname in Hkey. injection Hkey as <-.
  rewrite scan_by_str in Hscan. by exists at_.
Qed.

Lemma dict_named d name g :
  dict_get «"filename"» d = Some (JStr name) ->
  named g (JObj d) = bool_decide (name = g).
Proof. unfold named, names, eq_str. by intros ->. Qed.

(** The first record of a name is replaced, the later ones stay, and
    there are as many records of each name as before. *)
Lemma place_over_first name items i record :
  scan name items 0 = inr (Some i) ->
  (forall g, named g record = bool_decide (name = g)) ->
  (exists old, items !! i = Some old /\ named name old = true) /\
  (forall j y, (j < i)%nat -> items !! j = Some y -> named name y = false) /\
  (forall j, (i < j)%nat ->
             place items (Some i) record !! j = items !! j) /\
  (forall g, count_named g (place items (Some i) record)
             = count_named g items).
Proof.
  intros Hscan Hrec.
  pose proof (scan_found _ _ _ _ Hscan) as (j & old & -> & Hj & Hold & Hfirst).
  split; [by exists old|]. split; [exact Hfirst|]. split.
  - intros j' Hlt. simpl. apply list_lookup_insert_ne. lia.
  - intros g. rewrite (place_counts name items (Some (0 + j)%nat) record g)
      by done. lia.
Qed.

Lemma place_unique name items at_ record :
  scan name items 0 = inr at_ ->
  (forall g, named g record = bool_decide (name = g)) ->
  unique_names (place items at_ record) <-> unique_names items.
Proof.
  intros Hscan Hrec. unfold unique_names.
  split; intros H g; specialize (H g);
    rewrite (place_counts name items at_ record g) in * by done.
  - lia.
  - destruct at_ as [i|]; [lia|].
    destruct (bool_decide (name = g)) eqn:E; [|lia].
    apply bool_decide_eq_true_1 in E as <-.
    rewrite (scan_absent _ _ _ Hscan). lia.
Qed.

(** A dict whose 'filename' is not a [str] takes the place of a record
    that has no name, or comes last: no name gains or loses a record. *)
Lemma place_unique_by key items at_ d :
  scan_by key items 0 = inr at_ ->
  dict_get «"filename"» d = Some key ->
  unique_names (place items at_ (JObj d)) <-> unique_names items.
Proof.
  intros Hscan Hkey.
  assert ((exists name, key = JStr name) \/ forall name, key <> JStr name)
    as [[name ->]|Hne] by (destruct key; eauto).
  - rewrite scan_by_str in Hscan.
    eapply place_unique; [done|]. intros g. by apply dict_named.
  -
    assert (forall g, named g (JObj d) = false) as Hd.
    { intros g. unfold named, names, eq_str. rewrite Hkey.
      destruct key; try done. by destruct (Hne s). }
    assert (forall g, count_named g (place items at_ (JObj d))
                      = count_named g items) as Hcount.
    { intros g. destruct at_ as [i|]; simpl.
      - apply scan_by_found in Hscan as (j & old & -> & Hj & Hold).
        apply (count_named_insert g items _ old); [done|].
        by rewrite Hd, (names_by_other key old g Hne Hold).
      - rewrite count_named_app. simpl. rewrite Hd. lia. }
    unfold unique_names. split; intros H g; specialize (H g);
      by rewrite Hcount in *.
Qed.

(** C10.  When the store already lists a file name more than once, an
    upsert of a record of that name replaces the first record of the
    name only: the later ones stay in place, and as many records bear
    the name as before.  So the names of the store are unique after an
    upsert exactly when they were before it.  This holds of
    [save_archive_info] and of [_save_archive_info_dict]. *)
Theorem upsert_keeps_duplicates :
  (forall e a disk disk',
     upsert e a disk disk' ->
     (2 <= count_named (filename a) (entries disk))%nat ->
     exists i old record,
       stored e a = Some record /\
       entries disk !! i = Some old /\ named (filename a) old = true /\
       (forall j y, (j < i)%nat -> entries disk !! j = Some y ->
                    named (filename a) y = false) /\
       entries disk' = <[i := record]> (entries disk) /\
       (forall j, (i < j)%nat -> entries disk' !! j = entries disk !! j) /\
       count_named (filename a) (entries disk')
       = count_named (filename a) (entries disk)) /\
  (forall e d name disk disk',
     upsert_dict e d disk disk' ->
     dict_get «"filename"» d = Some (JStr name) ->
     (2 <= count_named name (entries disk))%nat ->
     exists i old,
       entries disk !! i = Some old /\ named name old = true /\
       (forall j y, (j < i)%nat -> entries disk !! j = Some y ->
                    named name y = false) /\
       entries disk' = <[i := JObj d]> (entries disk) /\
       (forall j, (i < j)%nat -> entries disk' !! j = entries disk !! j) /\
       count_named name (entries disk') = count_named name (entries disk)) /\
  (forall e a disk disk',
     upsert e a disk disk' ->
     (unique_names (entries disk') <-> unique_names (entries disk))) /\
  (forall e d disk disk',
     upsert_dict e d disk disk' ->
     (unique_names (entries disk') <-> unique_names (entries disk))).
Proof.
  split; [|split; [|split]].
  - intros e a disk disk' (at_ & record & Hscan & Hst & ->)%upsert_entries H2.
    destruct at_ as [i|];
      [|rewrite (scan_absent _ _ _ Hscan) in H2; lia].
    destruct (place_over_first _ _ _ record Hscan
                (fun g => stored_named _ _ _ g Hst))
      as ((old & Hi & Hold) & Hfirst & Hlater & Hcount).
    by exists i, old, record.
  - intros e d name disk disk' Hup Hd H2.
    destruct (upsert_dict_inv _ _ _ _ _ Hup Hd) as (at_ & Hscan & ->).
    destruct at_ as [i|];
      [|rewrite (scan_absent _ _ _ Hscan) in H2; lia].
    destruct (place_over_first _ _ _ (JObj d) Hscan
                (fun g => dict_named d name g Hd))
      as ((old & Hi & Hold) & Hfirst & Hlater & Hcount).
    by exists i, old.
  - intros e a disk disk' (at_ & record & Hscan & Hst & ->)%upsert_entries.
    eapply place_unique; [done|]. intros g. by eapply stored_named.
  - intros e d disk disk' (key & at_ & Hkey & Hscan & ->)%upsert_dict_by.
    by eapply place_unique_by.
Qed.

Lemma upsert_keeps_duplicates_witness :
  exists i old record,
    stored Sample.sound Sample.archive = Some record /\
    entries Sample.listed_twice !! i = Some old /\
    named Sample.scenario_name old = true /\
    (forall j y, (j < i)%nat -> entries Sample.listed_twice !! j = Some y ->
                 named Sample.scenario_name y = false) /\
    entries (save_archive_info Sample.sound Sample.archive
               Sample.listed_twice).2
    = <[i := record]> (entries Sample.listed_twice) /\
    (forall j, (i < j)%nat ->
               entries (save_archive_info Sample.sound Sample.archive
                          Sample.listed_twice).2 !! j
               = entries Sample.listed_twice !! j) /\
    count_named Sample.scenario_name
      (entries (save_archive_info Sample.sound Sample.archive
                  Sample.listed_twice).2)
    = count_named Sample.scenario_name (entries Sample.listed_twice).
Proof.
  apply (proj1 upsert_keeps_duplicates Sample.sound Sample.archive
           Sample.listed_twice).
  - split; [reflexivity | vm_compute; reflexivity].
  - vm_compute. lia.
Defined.

(** C2, as it stands, fails on a store that lists the file name twice:
    after the two upserts two records bear the name. *)
Lemma upsert_twice_counterexample :
  ~ replaced_in_place Sample.sound Sample.later
      Sample.archive Sample.archive_again Sample.listed_twice.
Proof.
  intros H.
  destruct (H (save_archive_info Sample.sound Sample.archive
                 Sample.listed_twice).2
              (save_archive_info Sample.later Sample.archive_again
                 (save_archive_info Sample.sound Sample.archive
                    Sample.listed_twice).2).2)
    as (i & r1 & r2 & _ & _ & _ & _ & Hcount).
  - split; [reflexivity | vm_compute; reflexivity].
  - split; [reflexivity | vm_compute; reflexivity].
  - vm_compute in Hcount. discriminate.
Qed.

(** C2, amended.  When at most one record of the store bears the file
    name, upserting two records of that name, one after the other, leaves
    exactly one record of the name: the second one, at the place in the
    list where the first one was, the length of the list unchanged by
    the second upsert. *)
Theorem upsert_twice_one_record e1 e2 a1 a2 disk :
  filename a1 = filename a2 ->
  (count_named (filename a1) (entries disk) <= 1)%nat ->
  replaced_in_place e1 e2 a1 a2 disk.
Proof.
  intros Hname Hone disk1 disk2
    (at1 & r1 & Hscan1 & Hst1 & Hd1)%upsert_entries
    (at2 & r2 & Hscan2 & Hst2 & Hd2)%upsert_entries.
  destruct (scan_place _ _ _ r1 Hscan1 (stored_names _ _ _ Hst1))
    as (j & Hfound & Hj & _).
  rewrite <- Hd1 in Hfound, Hj.
  rewrite <- Hname, Hfound in Hscan2. injection Hscan2 as <-.
  exists j, r1, r2. split; [done|]. split; [done|]. split; [done|].
  split; [done|]. rewrite Hd2, <- Hname.
  rewrite (place_counts (filename a1) (entries disk1) (Some j) r2)
    by (try done; intros g; rewrite Hname; by eapply stored_named).
  rewrite Hd1.
  rewrite (place_counts (filename a1) (entries disk) at1 r1)
    by (try done; intros g; by eapply stored_named).
  destruct at1 as [i|].
  - apply scan_found in Hscan1 as (k & old & _ & Hk & Hold & _).
    pose proof (count_named_pos _ _ _ _ Hk Hold). lia.
  - rewrite (scan_absent _ _ _ Hscan1), bool_decide_eq_true_2 by done. lia.
Qed.

Lemma upsert_twice_one_record_witness :
  exists i r1 r2,
    stored Sample.sound Sample.archive = Some r1 /\
    stored Sample.later Sample.archive_again = Some r2 /\
    entries (save_archive_info Sample.sound Sample.archive
               Sample.one_record).2 !! i = Some r1 /\
    entries (save_archive_info Sample.later Sample.archive_again
               (save_archive_info Sample.sound Sample.archive
                  Sample.one_record).2).2
    = <[i := r2]> (entries (save_archive_info Sample.sound Sample.archive
                              Sample.one_record).2) /\
    count_named Sample.scenario_name
      (entries (save_archive_info Sample.later Sample.archive_again
                  (save_archive_info Sample.sound Sample.archive
                     Sample.one_record).2).2) = 1%nat.
Proof.
  apply (upsert_twice_one_record Sample.sound Sample.later
           Sample.archive Sample.archive_again Sample.one_record).
  - reflexivity.
  - vm_compute. lia.
  - split; [reflexivity | vm_compute; reflexivity].
  - split; [reflexivity | vm_compute; reflexivity].
Defined.

(** ** The store: failures *)

(** The [try] block either raises with the file untouched, or fails
    in the middle of the write and leaves an incomplete file, or writes a
    document. *)
Lemma save_archive_info_body_cases e a disk :
  (exists ex, save_archive_info_body e a disk = (inl ex, disk)) \/
  (write_fault e = DumpFails /\
   save_archive_info_body e a disk = (inl OSError, Malformed)) \/
  (write_fault e = NoFault /\
   exists v, save_archive_info_body e a disk = (inr tt, Document v)).
Proof.
  unfold save_archive_info_body, mbind, io_bind, lift.
  destruct (load_existing e disk) as [[ex|data] disk1] eqn:Hload;
    pose proof (load_existing_disk _ _ _ _ Hload) as ->; [by left; eexists|].
  destruct (find_record _ data) as [ex|at_]; [by left; eexists|].
  destruct (from_option _ _ (to_dict a)) as [ex|d]; [by left; eexists|].
  destruct (put data at_ _) as [ex|data']; [by left; eexists|].
  unfold write_json. destruct (write_fault e).
  - right; right. split; [done|]. by eexists.
  - left. by eexists.
  - right; left. done.
Qed.




(** ** The store: a file that cannot be read *)

(** A store that is missing, or whose text is no JSON document, or that
    cannot be opened, counts as an empty list, and the record is
    written. *)
Lemma save_archive_info_degraded e a disk record :
  mkdir_fails e = false -> write_fault e = NoFault ->
  stored e a = Some record ->
  disk = Missing \/ disk = Malformed \/ read_fails e = true ->
  save_archive_info e a disk = (Returns true, Document (JArr [record])).
Proof.
  intros Hmk Hw Hst Hdisk.
  unfold save_archive_info, save_archive_info_body. rewrite Hmk.
  unfold stored in Hst. destruct (to_dict a) as [d|] eqn:Hd; [|done].
  injection Hst as <-.
  assert (load_existing e disk = (inr (JArr []), disk)) as Hload.
  { unfold load_existing, mbind, io_bind, path_exists, try_except, read_json.
    destruct Hdisk as [-> | [-> | Hr]].
    - done.
    - by destruct (read_fails e).
    - rewrite Hr. by destruct disk. }
  unfold mbind, io_bind, lift, write_json. rewrite Hload. simpl.
  by rewrite Hw.
Qed.

(** A store whose bytes are not UTF-8 makes every call return [False]
    and stays as it is: [UnicodeDecodeError] is not among the exceptions
    the inner handler takes for an unreadable store. *)
Lemma save_archive_info_undecodable e a :
  mkdir_fails e = false -> read_fails e = false ->
  save_archive_info e a Undecodable = (Returns false, Undecodable).
Proof.
  intros Hmk Hr. unfold save_archive_info, save_archive_info_body. rewrite Hmk.
  unfold load_existing, mbind, io_bind, path_exists, try_except, read_json.
  by rewrite Hr.
Qed.

(** The same holds of a JSON document the decoder gives up on: what
    [json.load] raises on it, a ValueError or a RecursionError, is not
    caught by the inner handler either. *)
Lemma save_archive_info_unloadable e a disk :
  mkdir_fails e = false -> read_fails e = false ->
  disk = Oversized \/ disk = Overnested ->
  save_archive_info e a disk = (Returns false, disk).
Proof.
  intros Hmk Hr. unfold save_archive_info, save_archive_info_body. rewrite Hmk.
  unfold load_existing, mbind, io_bind, path_exists, try_except, read_json.
  rewrite Hr. by intros [->| ->].
Qed.

(** C8.  The code on a store file that cannot be parsed because its
    bytes are not UTF-8: the call returns [False] and writes nothing,
    where a missing store and a store whose text is no JSON document are
    taken for an empty list and replaced by the list of the one
    record. *)
Theorem undecodable_store_blocks_upsert :
  save_archive_info Sample.sound Sample.archive Undecodable
  = (Returns false, Undecodable) /\
  (exists record,
     stored Sample.sound Sample.archive = Some record /\
     save_archive_info Sample.sound Sample.archive Missing
     = (Returns true, Document (JArr [record])) /\
     save_archive_info Sample.sound Sample.archive Malformed
     = (Returns true, Document (JArr [record]))).
Proof.
  split; [by vm_compute|].
  eexists. split; [by vm_compute|]. split; by vm_compute.
Qed.

(** ** The store: marking a record as extracted *)

Lemma extracted_dict_keys e a extract_dir d :
  extracted_dict e a extract_dir = Some d ->
  dict_get «"extracted"» d = Some (JBool true) /\
  dict_get «"extract_dir"» d = Some (JStr extract_dir) /\
  dict_get «"extraction_time"» d = Some (JStr (now e)) /\
  dict_get «"filename"» d = Some (JStr (filename a)) /\
  dict_get «"updated_at"» d = None.
Proof.
  unfold extracted_dict, to_dict. destruct (date_of a); [|done].
  by intros [= <-].
Qed.

(** Whatever the store held, the record that [mark_extracted] leaves
    at the place of the file name has no 'updated_at'. *)
Lemma mark_extracted_stored e a extract_dir disk disk' :
  read_fails e = false ->
  mark_extracted e a extract_dir disk = (Returns true, disk') ->
  exists d i,
    extracted_dict e a extract_dir = Some d /\
    find_record (filename a) (JArr (entries disk')) = inr (Some i) /\
    entries disk' !! i = Some (JObj d) /\
    dict_get «"updated_at"» d = None.
Proof.
  intros Hr. unfold mark_extracted.
  destruct (extracted_dict e a extract_dir) as [d|] eqn:Hd; [|done].
  intros Hsave.
  destruct (extracted_dict_keys _ _ _ _ Hd) as (_ & _ & _ & Hfile & Hnone).
  destruct (upsert_dict_inv e d (filename a) disk disk' (conj Hr Hsave) Hfile)
    as (at_ & Hscan & ->).
  destruct (scan_place _ _ _ (JObj d) Hscan) as (j & Hfound & Hj & _).
  { apply named_true. rewrite (dict_named d (filename a)) by done.
    by apply bool_decide_eq_true_2. }
  by exists d, j.
Qed.

(** C1.  The code on the record of the scenario, saved and then marked
    as extracted: the first call stores the record with 'updated_at';
    the second one replaces it by a dict that has 'extracted',
    'extract_dir' and 'extraction_time' and no 'updated_at'. *)
Theorem mark_extracted_drops_updated_at :
  exists before after,
    save_archive_info Sample.sound Sample.archive Missing
    = (Returns true, Document (JArr [JObj before])) /\
    dict_get «"updated_at"» before = Some (JStr (now Sample.sound)) /\
    mark_extracted Sample.later Sample.archive «"extracted"»
      (Document (JArr [JObj before]))
    = (Returns true, Document (JArr [JObj after])) /\
    dict_get «"extracted"» after = Some (JBool true) /\
    dict_get «"extract_dir"» after = Some (JStr «"extracted"») /\
    dict_get «"extraction_time"» after = Some (JStr (now Sample.later)) /\
    dict_get «"updated_at"» after = None.
Proof.
  eexists. eexists. split; [by vm_compute|]. split; [by vm_compute|].
  split; [by vm_compute|]. by vm_compute.
Qed.

(** * Further properties of the store *)

(** ** When a save succeeds *)

Lemma save_archive_info_ok e a disk items at_ record :
  mkdir_fails e = false -> write_fault e = NoFault ->
  load_existing e disk = (inr (JArr items), disk) ->
  scan (filename a) items 0 = inr at_ ->
  stored e a = Some record ->
  save_archive_info e a disk
  = (Returns true, Document (JArr (place items at_ record))).
Proof.
  intros Hmk Hw Hload Hscan Hst.
  unfold save_archive_info, save_archive_info_body, mbind, io_bind, lift,
    write_json.
  rewrite Hmk, Hload. simpl. rewrite Hscan.
  unfold stored in Hst. destruct (to_dict a) as [d|]; [|done].
  injection Hst as <-. simpl. rewrite Hw. by destruct at_.
Qed.

Lemma _save_archive_info_dict_ok e d name disk items at_ :
  mkdir_fails e = false -> write_fault e = NoFault ->
  load_existing e disk = (inr (JArr items), disk) ->
  dict_get «"filename"» d = Some (JStr name) ->
  scan name items 0 = inr at_ ->
  _save_archive_info_dict e d disk
  = (Returns true, Document (JArr (place items at_ (JObj d)))).
Proof.
  intros Hmk Hw Hload Hname Hscan.
  unfold _save_archive_info_dict, _save_archive_info_dict_body, mbind,
    io_bind, lift, write_json.
  rewrite Hmk, Hload, Hname. simpl. rewrite scan_by_str, Hscan. simpl.
  rewrite Hw. by destruct at_.
Qed.

Lemma save_archive_info_true_sound e a disk disk' :
  save_archive_info e a disk = (Returns true, disk') ->
  mkdir_fails e = false /\ write_fault e = NoFault.
Proof.
  unfold save_archive_info. destruct (mkdir_fails e); [done|].
  destruct (save_archive_info_body_cases e a disk)
    as [[ex ->]|[[Hf ->]|[Hf [v ->]]]]; done.
Qed.

(** What a file holds for the code: a missing file and a text that is no
    JSON count as the empty list, a JSON list as itself. *)
Lemma load_existing_list e disk items :
  read_fails e = false ->
  load_existing e disk = (inr (JArr items), disk) <->
  (disk = Missing \/ disk = Malformed) /\ items = [] \/
  disk = Document (JArr items).
Proof.
  intros Hr. unfold load_existing, mbind, io_bind, path_exists, try_except,
    read_json, mret, io_ret. rewrite Hr.
  destruct disk as [| | | | |v]; simpl; split;
    try done; try (by intros [[[|] _]|]); try (by intros [[_ ->]|]).
  - intros [= <-]. left. split; [by left | done].
  - intros [= <-]. left. split; [by right | done].
  - intros [= ->]. by right.
  - intros [[[|] _]|[= ->]]; done.
Qed.

(** X1.  [save_archive_info], when the store file can be opened, returns
    [True] exactly when the directory can be made, the write goes
    through, the record has a date [strptime] accepts, and the store is
    missing, or is no JSON text, or is a document that [json.load]
    returns a list for, in which no element that is not an object comes
    before the first record of the file name; the file then holds the
    list with the record in its place.  (Bytes that are not UTF-8 and a
    document the decoder gives up on are none of these: the call returns
    [False].) *)
Theorem save_archive_info_true_iff e a disk disk' :
  read_fails e = false ->
  save_archive_info e a disk = (Returns true, disk') <->
  mkdir_fails e = false /\ write_fault e = NoFault /\
  (disk = Missing \/ disk = Malformed \/
   exists items, disk = Document (JArr items)) /\
  exists at_ record,
    scan (filename a) (entries disk) 0 = inr at_ /\
    stored e a = Some record /\
    disk' = Document (JArr (place (entries disk) at_ record)).
Proof.
  intros Hr. split.
  - intros Hsave.
    destruct (save_archive_info_true_sound _ _ _ _ Hsave) as [Hmk Hw].
    apply save_archive_info_true in Hsave
      as (items & at_ & record & Hload & Hscan & Hst & ->).
    pose proof (load_existing_entries _ _ _ _ Hr Hload) as ->.
    split; [done|]. split; [done|]. split; [|by exists at_, record].
    apply load_existing_list in Hload as [[[->| ->] _]| ->]; eauto.
  - intros (Hmk & Hw & Hdisk & at_ & record & Hscan & Hst & ->).
    apply save_archive_info_ok; try done.
    apply load_existing_list; [done|].
    destruct Hdisk as [->|[->|[items ->]]]; [left|left|right]; eauto.
Qed.

Lemma save_archive_info_true_iff_witness :
  save_archive_info Sample.sound Sample.archive Sample.one_record
  = (Returns true,
     (save_archive_info Sample.sound Sample.archive Sample.one_record).2) <->
  mkdir_fails Sample.sound = false /\ write_fault Sample.sound = NoFault /\
  (Sample.one_record = Missing \/ Sample.one_record = Malformed \/
   exists items, Sample.one_record = Document (JArr items)) /\
  exists at_ record,
    scan (filename Sample.archive) (entries Sample.one_record) 0 = inr at_ /\
    stored Sample.sound Sample.archive = Some record /\
    (save_archive_info Sample.sound Sample.archive Sample.one_record).2
    = Document (JArr (place (entries Sample.one_record) at_ record)).
Proof.
  apply (save_archive_info_true_iff Sample.sound Sample.archive
           Sample.one_record). reflexivity.
Defined.

(** ** Stores that no save can write *)

(** A call whose [try] block raises before the write returns [False]
    and leaves the file as it was. *)
Lemma save_archive_info_body_raises e a disk :
  mkdir_fails e = false ->
  (forall data, load_existing e disk = (inr data, disk) ->
     forall at_ record,
       find_record (filename a) data = inr at_ ->
       stored e a = Some record ->
       exists ex, put data at_ record = inl ex) ->
  save_archive_info e a disk = (Returns false, disk).
Proof.
  intros Hmk Hfail.
  unfold save_archive_info, save_archive_info_body, mbind, io_bind, lift.
  rewrite Hmk.
  destruct (load_existing e disk) as [[ex|data] disk1] eqn:Hload;
    pose proof (load_existing_disk _ _ _ _ Hload) as ->; [done|].
  destruct (find_record _ data) as [ex|at_] eqn:Hfind; [done|].
  specialize (Hfail data eq_refl at_).
  unfold stored in Hfail. destruct (to_dict a) as [d|]; [|done].
  destruct (Hfail _ Hfind eq_refl) as [ex Hput]. simpl. by rewrite Hput.
Qed.

(** X2.  A store that holds a JSON document other than a list -- an
    object, a string, a number, true, false or null -- is never written:
    whatever the record, [save_archive_info] returns [False] and the file
    stays as it is. *)
Theorem save_archive_info_not_a_list e a v :
  mkdir_fails e = false -> read_fails e = false ->
  (forall items, v <> JArr items) ->
  save_archive_info e a (Document v) = (Returns false, Document v).
Proof.
  intros Hmk Hr Hv. apply save_archive_info_body_raises; [done|].
  rewrite load_existing_document by done. intros data [= <-] at_ record Hfind _.
  destruct v as [| | |s|items|d]; simpl in Hfind; try done.
  - destruct s; [|done]. injection Hfind as <-. by eexists.
  - by destruct (Hv items).
  - destruct d; [|done]. injection Hfind as <-. by eexists.
Qed.

Lemma save_archive_info_not_a_list_witness :
  save_archive_info Sample.sound Sample.archive (Document (JObj []))
  = (Returns false, Document (JObj [])).
Proof.
  apply (save_archive_info_not_a_list Sample.sound Sample.archive (JObj []));
    [reflexivity | reflexivity | discriminate].
Defined.

Lemma scan_not_object name items i x k :
  items !! i = Some x ->
  (forall d, x <> JObj d) ->
  (forall j y, (j < i)%nat -> items !! j = Some y -> named name y = false) ->
  exists ex, scan name items k = inl ex.
Proof.
  revert i k. induction items as [|y items IH]; intros [|i] k; simpl; try done.
  - intros [= ->] Hx _. destruct x; try by eexists. by destruct (Hx fields).
  - intros Hi Hx Hbefore.
    pose proof (Hbefore 0%nat y ltac:(lia) eq_refl) as Hy.
    unfold named in Hy. destruct (names name y) as [ex|[]]; [by eexists|done|].
    apply (IH i); [done | done |].
    intros j z Hj Hz. apply (Hbefore (S j)); [lia | done].
Qed.

(** X3.  A list in which something that is not an object -- a number, a
    string, a list, null -- stands before every record of the file name
    is never written either: [save_archive_info] returns [False] and the
    file stays as it is. *)
Theorem save_archive_info_not_an_object e a items i x :
  mkdir_fails e = false -> read_fails e = false ->
  items !! i = Some x ->
  (forall d, x <> JObj d) ->
  (forall j y, (j < i)%nat -> items !! j = Some y ->
               named (filename a) y = false) ->
  save_archive_info e a (Document (JArr items))
  = (Returns false, Document (JArr items)).
Proof.
  intros Hmk Hr Hi Hx Hbefore.
  unfold save_archive_info, save_archive_info_body, mbind, io_bind, lift.
  rewrite Hmk, load_existing_document by done. simpl.
  by destruct (scan_not_object (filename a) items i x 0 Hi Hx Hbefore) as [ex ->].
Qed.

Lemma save_archive_info_not_an_object_witness :
  save_archive_info Sample.sound Sample.archive
    (Document (JArr [JNull; JObj [(«"filename"», JStr Sample.scenario_name)]]))
  = (Returns false,
     Document (JArr [JNull; JObj [(«"filename"», JStr Sample.scenario_name)]])).
Proof.
  apply (save_archive_info_not_an_object Sample.sound Sample.archive _
           0%nat JNull); [reflexivity | reflexivity | reflexivity | discriminate |].
  intros j y Hj. lia.
Defined.

(** X4.  A record whose [date_str] [strptime] does not accept -- no
    parser made it -- is not saved: [to_dict] raises inside the [try],
    [save_archive_info] returns [False] and the file stays as it is. *)
Theorem save_archive_info_bad_date e a disk :
  mkdir_fails e = false ->
  strptime (date_str a) = None ->
  save_archive_info e a disk = (Returns false, disk).
Proof.
  intros Hmk Hdate. apply save_archive_info_body_raises; [done|].
  intros data _ at_ record _. unfold stored, to_dict, date_of.
  by rewrite Hdate.
Qed.

Lemma save_archive_info_bad_date_witness :
  save_archive_info Sample.sound
    {| filename := «"x.zip"»; date_str := «"20250231"»; post_id := «"1"»;
       floor_number := «"1"»; author_id := «"a"»;
       encryption_method := «"sha256"» |} Sample.one_record
  = (Returns false, Sample.one_record).
Proof.
  apply save_archive_info_bad_date; [reflexivity | by vm_compute].
Defined.

(** X5.  A dict without 'filename' is not saved by
    [_save_archive_info_dict]: the KeyError is raised inside the [try],
    the call returns [False] and the file stays as it is. *)
Theorem _save_archive_info_dict_no_filename e d disk :
  mkdir_fails e = false ->
  dict_get «"filename"» d = None ->
  _save_archive_info_dict e d disk = (Returns false, disk).
Proof.
  intros Hmk Hname.
  unfold _save_archive_info_dict, _save_archive_info_dict_body, mbind,
    io_bind, lift.
  rewrite Hmk, Hname.
  destruct (load_existing e disk) as [[ex|data] disk1] eqn:Hload;
    by pose proof (load_existing_disk _ _ _ _ Hload) as ->.
Qed.

Lemma _save_archive_info_dict_no_filename_witness :
  _save_archive_info_dict Sample.sound [(«"extracted"», JBool true)]
    Sample.one_record
  = (Returns false, Sample.one_record).
Proof.
  apply _save_archive_info_dict_no_filename; reflexivity.
Defined.

(** ** Saving again, and marking *)

Lemma place_again name items at_ record :
  scan name items 0 = inr at_ ->
  names name record = inr true ->
  exists j,
    scan name (place items at_ record) 0 = inr (Some j) /\
    place (place items at_ record) (Some j) record = place items at_ record.
Proof.
  intros Hscan Hrec.
  destruct (scan_place _ _ _ record Hscan Hrec) as (j & Hfound & Hj & _).
  exists j. split; [done|]. simpl. by apply list_insert_id.
Qed.

(** X6.  Saving is idempotent: after an upsert, the same record saved
    again by a call with the same clock returns [True] and leaves the
    file exactly as the first save left it. *)
Theorem save_archive_info_twice e a disk disk1 :
  upsert e a disk disk1 ->
  save_archive_info e a disk1 = (Returns true, disk1).
Proof.
  intros [Hr Hsave].
  destruct (save_archive_info_true_sound _ _ _ _ Hsave) as [Hmk Hw].
  apply save_archive_info_true in Hsave
    as (items & at_ & record & _ & Hscan & Hst & ->).
  destruct (place_again _ _ _ record Hscan (stored_names _ _ _ Hst))
    as (j & Hfound & Hsame).
  rewrite <- Hsame at 2.
  apply save_archive_info_ok; try done.
  by apply load_existing_document.
Qed.

Lemma save_archive_info_twice_witness :
  save_archive_info Sample.sound Sample.archive
    (save_archive_info Sample.sound Sample.archive Sample.one_record).2
  = (Returns true,
     (save_archive_info Sample.sound Sample.archive Sample.one_record).2).
Proof.
  apply (save_archive_info_twice Sample.sound Sample.archive
           Sample.one_record).
  split; [reflexivity | vm_compute; reflexivity].
Defined.

(** X7.  What the parser returns can always be stored: its [date_str]
    is accepted by [strptime], so [to_dict] does not raise, and the dict
    holds the parsed name, unchanged, under 'filename'. *)
Theorem parsed_has_dict name info :
  parse_archive_filename name = Some info ->
  exists fields,
    to_dict info = Some fields /\
    dict_get «"filename"» fields = Some (JStr name) /\
    dict_get «"date_str"» fields = Some (JStr (date_str info)).
Proof.
  intros (Hname & [dt Hdt] & _)%parse_archive_filename_exact.
  unfold to_dict, date_of. rewrite Hdt. eexists. split; [done|].
  by rewrite Hname.
Qed.

Lemma parsed_has_dict_witness :
  exists fields,
    to_dict Sample.archive = Some fields /\
    dict_get «"filename"» fields = Some (JStr Sample.scenario_name) /\
    dict_get «"date_str"» fields = Some (JStr (date_str Sample.archive)).
Proof.
  apply (parsed_has_dict Sample.scenario_name Sample.archive).
  by vm_compute.
Defined.

(** X8.  [_save_archive_info_dict] keeps the order of the store as
    [save_archive_info] does: when it returns [True] the list is the old
    one with the dict put over the first record of its file name, or
    added at the end when no record bears the name, and every record of
    another name stays where it was. *)
Theorem _save_archive_info_dict_keeps_order e d name disk disk' :
  upsert_dict e d disk disk' ->
  dict_get «"filename"» d = Some (JStr name) ->
  ((exists i old,
      entries disk !! i = Some old /\ named name old = true /\
      (forall j y, (j < i)%nat -> entries disk !! j = Some y ->
                   named name y = false) /\
      entries disk' = <[i := JObj d]> (entries disk))
   \/ (count_named name (entries disk) = 0%nat /\
       entries disk' = entries disk ++ [JObj d])) /\
  (forall j old,
     entries disk !! j = Some old -> named name old = false ->
     entries disk' !! j = Some old).
Proof.
  intros Hup Hd.
  destruct (upsert_dict_inv _ _ _ _ _ Hup Hd) as (at_ & Hscan & ->).
  destruct at_ as [i|]; simpl.
  - apply scan_found in Hscan as (j & old & -> & Hj & Hold & Hfirst). simpl.
    split; [left; by exists j, old|].
    intros j' y Hj' Hy. rewrite list_lookup_insert_ne; [done|].
    intros <-. congruence.
  - split; [right; split; [by eapply scan_absent | done]|].
    intros j old Hj _. by apply lookup_app_l_Some.
Qed.

Lemma _save_archive_info_dict_keeps_order_witness :
  ((exists i old,
      entries Sample.listed_twice !! i = Some old /\
      named Sample.scenario_name old = true /\
      (forall j y, (j < i)%nat -> entries Sample.listed_twice !! j = Some y ->
                   named Sample.scenario_name y = false) /\
      entries (_save_archive_info_dict Sample.sound
                 [(«"filename"», JStr Sample.scenario_name)]
                 Sample.listed_twice).2
      = <[i := JObj [(«"filename"», JStr Sample.scenario_name)]]>
          (entries Sample.listed_twice))
   \/ (count_named Sample.scenario_name (entries Sample.listed_twice) = 0%nat /\
       entries (_save_archive_info_dict Sample.sound
                  [(«"filename"», JStr Sample.scenario_name)]
                  Sample.listed_twice).2
       = entries Sample.listed_twice
         ++ [JObj [(«"filename"», JStr Sample.scenario_name)]])) /\
  (forall j old,
     entries Sample.listed_twice !! j = Some old ->
     named Sample.scenario_name old = false ->
     entries (_save_archive_info_dict Sample.sound
                [(«"filename"», JStr Sample.scenario_name)]
                Sample.listed_twice).2 !! j = Some old).
Proof.
  apply (_save_archive_info_dict_keeps_order Sample.sound
           [(«"filename"», JStr Sample.scenario_name)] Sample.scenario_name
           Sample.listed_twice).
  - split; [reflexivity | vm_compute; reflexivity].
  - reflexivity.
Defined.

Lemma extracted_dict_some e a extract_dir :
  is_Some (to_dict a) -> is_Some (extracted_dict e a extract_dir).
Proof. unfold extracted_dict. by intros [d ->]. Qed.

(** X9.  Saving and then marking compose: after an upsert of a record,
    [mark_extracted] by a call that meets no failure returns [True] and
    puts the extraction dict where the upsert had put the record; the
    list keeps its length, and the dict has 'extracted' true and the
    directory under 'extract_dir'. *)
Theorem save_then_mark e1 e2 a extract_dir disk disk1 :
  upsert e1 a disk disk1 ->
  mkdir_fails e2 = false -> read_fails e2 = false ->
  write_fault e2 = NoFault ->
  exists i record d disk2,
    stored e1 a = Some record /\
    entries disk1 !! i = Some record /\
    extracted_dict e2 a extract_dir = Some d /\
    mark_extracted e2 a extract_dir disk1 = (Returns true, disk2) /\
    entries disk2 = <[i := JObj d]> (entries disk1) /\
    length (entries disk2) = length (entries disk1) /\
    dict_get «"extracted"» d = Some (JBool true) /\
    dict_get «"extract_dir"» d = Some (JStr extract_dir).
Proof.
  intros (at_ & record & Hscan & Hst & ->)%upsert_inv Hmk Hr Hw.
  destruct (scan_place _ _ _ record Hscan (stored_names _ _ _ Hst))
    as (j & Hfound & Hj & _).
  assert (is_Some (to_dict a)) as Hdict.
  { unfold stored in Hst. by destruct (to_dict a). }
  destruct (extracted_dict_some e2 a extract_dir Hdict) as [d Hd].
  destruct (extracted_dict_keys _ _ _ _ Hd) as (Hex & Hdir & _ & Hname & _).
  exists j, record, d. eexists.
  split; [done|]. split; [done|]. split; [done|].
  unfold mark_extracted. rewrite Hd.
  rewrite (_save_archive_info_dict_ok e2 d (filename a) _ _ (Some j))
    by (try done; by apply load_existing_document).
  split; [done|]. split; [done|]. split; [|done].
  simpl. by rewrite length_insert.
Qed.

Lemma save_then_mark_witness :
  exists i record d disk2,
    stored Sample.sound Sample.archive = Some record /\
    entries (save_archive_info Sample.sound Sample.archive
               Sample.one_record).2 !! i = Some record /\
    extracted_dict Sample.later Sample.archive «"out"» = Some d /\
    mark_extracted Sample.later Sample.archive «"out"»
      (save_archive_info Sample.sound Sample.archive Sample.one_record).2
    = (Returns true, disk2) /\
    entries disk2
    = <[i := JObj d]>
        (entries (save_archive_info Sample.sound Sample.archive
                    Sample.one_record).2) /\
    length (entries disk2)
    = length (entries (save_archive_info Sample.sound Sample.archive
                         Sample.one_record).2) /\
    dict_get «"extracted"» d = Some (JBool true) /\
    dict_get «"extract_dir"» d = Some (JStr «"out"»).
Proof.
  apply (save_then_mark Sample.sound Sample.later Sample.archive «"out"»
           Sample.one_record); try reflexivity.
  split; [reflexivity | vm_compute; reflexivity].
Defined.


(** * Properties of the extraction *)

(** ** The passwords of a file *)

Lemma add_new_elem all_passwords pwd x :
  x ∈ add_new all_passwords pwd <-> x ∈ all_passwords \/ x = pwd.
Proof.
  unfold add_new. case_bool_decide as Hin.
  - split; [by left | by intros [?| ->]].
  - by rewrite elem_of_app, list_elem_of_singleton.
Qed.

Lemma add_new_NoDup all_passwords pwd :
  NoDup all_passwords -> NoDup (add_new all_passwords pwd).
Proof.
  intros Hnd. unfold add_new. case_bool_decide as Hin; [done|].
  apply NoDup_app. split; [done|]. split.
  - intros x Hx ->%list_elem_of_singleton. done.
  - apply NoDup_singleton.
Qed.

Lemma fold_add_new_snoc l pwd acc :
  fold_left add_new (l ++ [pwd]) acc = add_new (fold_left add_new l acc) pwd.
Proof. by rewrite fold_left_app. Qed.

Lemma fold_add_new_elem l acc x :
  x ∈ fold_left add_new l acc <-> x ∈ acc \/ x ∈ l.
Proof.
  induction l as [|pwd l IH] using rev_ind; simpl.
  - rewrite elem_of_nil. tauto.
  - rewrite fold_add_new_snoc, add_new_elem, IH, elem_of_app,
      list_elem_of_singleton. tauto.
Qed.

Lemma fold_add_new_NoDup l acc :
  NoDup acc -> NoDup (fold_left add_new l acc).
Proof.
  intros Hnd. induction l as [|pwd l IH] using rev_ind; simpl; [done|].
  rewrite fold_add_new_snoc. by apply add_new_NoDup.
Qed.

(** Going on from [acc] adds, in their order, the passwords that are
    not in [acc]. *)
Lemma fold_add_new_from l acc :
  fold_left add_new l acc
  = acc ++ filter (fun x => x ∉ acc) (fold_left add_new l []).
Proof.
  induction l as [|pwd l IH] using rev_ind; simpl.
  - by rewrite filter_nil, app_nil_r.
  - rewrite !fold_add_new_snoc, IH. unfold add_new at 1 3.
    set (seen := fold_left add_new l []) in *.
    destruct (decide (pwd ∈ seen)) as [Hseen|Hseen].
    + rewrite (bool_decide_eq_true_2 (pwd ∈ seen)) by done.
      rewrite bool_decide_eq_true_2; [done|].
      rewrite elem_of_app, list_elem_of_filter.
      destruct (decide (pwd ∈ acc)); [by left | by right].
    + rewrite (bool_decide_eq_false_2 (pwd ∈ seen)) by done.
      rewrite filter_app.
      destruct (decide (pwd ∈ acc)) as [Hacc|Hacc].
      * rewrite bool_decide_eq_true_2 by (apply elem_of_app; by left).
        rewrite filter_cons_False by (intros H; by apply H).
        by rewrite filter_nil, app_nil_r.
      * rewrite bool_decide_eq_false_2.
        { by rewrite filter_cons_True, filter_nil, app_assoc by done. }
        rewrite elem_of_app, list_elem_of_filter. by intros [|[_ ?]].
Qed.

Lemma collect_passwords_hashable k password_configs passwords :
  Forall (fun pc => hashable pc = true) password_configs ->
  collect_passwords k password_configs passwords
  = inr (passwords ++ (password_configs ≫= entry_passwords k)).
Proof.
  intros H. revert passwords.
  induction H as [|pc rest Hpc _ IH]; intros passwords; simpl.
  - by rewrite app_nil_r.
  - destruct pc as [pwd|content type| |]; simpl in *.
    + by rewrite IH, <- app_assoc.
    + destruct (bool_decide (default «"hash"» type = «"raw"»)); simpl in *.
      * rewrite Hpc. by rewrite IH, <- app_assoc.
      * by rewrite IH, <- app_assoc.
    + done.
    + apply IH.
Qed.

Lemma collect_passwords_inr k password_configs passwords l :
  collect_passwords k password_configs passwords = inr l ->
  l = passwords ++ (password_configs ≫= entry_passwords k).
Proof.
  revert passwords. induction password_configs as [|pc rest IH];
    intros passwords; simpl.
  - intros [= <-]. by rewrite app_nil_r.
  - destruct pc as [pwd|content type| |]; simpl.
    + intros ->%IH. by rewrite <- app_assoc.
    + destruct (bool_decide (default «"hash"» type = «"raw"»)).
      * destruct (encodable _); [|done]. intros ->%IH. by rewrite <- app_assoc.
      * intros ->%IH. by rewrite <- app_assoc.
    + done.
    + apply IH.
Qed.

Lemma _get_passwords_for_file_inr c k archive_path pws :
  _get_passwords_for_file c k archive_path = inr pws ->
  pws = fold_left add_new
          ((entries_for c k archive_path ≫= entry_passwords k)
           ++ default_passwords c) [].
Proof.
  unfold _get_passwords_for_file, entries_for, default_passwords.
  destruct (collect_passwords k _ []) as [ex|l] eqn:Hc; [done|].
  apply collect_passwords_inr in Hc as ->.
  destruct (default_passwords_value c); [|done]. by intros [= <-].
Qed.

(** X10.  The list [_get_passwords_for_file] returns holds no password
    twice, and holds exactly the passwords the entries of the file stand
    for (a str itself, the hash of a 'raw' content, any other content as
    it is) and the default passwords. *)
Theorem passwords_once_each c k archive_path pws :
  _get_passwords_for_file c k archive_path = inr pws ->
  NoDup pws /\
  forall pwd,
    pwd ∈ pws <->
    (exists pwd_config,
        pwd_config ∈ entries_for c k archive_path /\
        pwd ∈ entry_passwords k pwd_config)
    \/ pwd ∈ default_passwords c.
Proof.
  intros H. apply _get_passwords_for_file_inr in H as ->. split.
  - apply fold_add_new_NoDup, NoDup_nil_2.
  - intros pwd. rewrite fold_add_new_elem, elem_of_nil, elem_of_app,
      list_elem_of_bind.
    split; [intros [[]|[(pc & ? & ?)|?]]|intros [(pc & ? & ?)|?]]; eauto.
Qed.

Lemma passwords_once_each_witness :
  NoDup [«"guess"»; «"secret"»; «"last"»] /\
  forall pwd,
    pwd ∈ [«"guess"»; «"secret"»; «"last"»] <->
    (exists pwd_config,
        pwd_config ∈ entries_for SampleRun.config SampleRun.quiet
                       Sample.scenario_name /\
        pwd ∈ entry_passwords SampleRun.quiet pwd_config)
    \/ pwd ∈ default_passwords SampleRun.config.
Proof.
  apply (passwords_once_each SampleRun.config SampleRun.quiet
           Sample.scenario_name).
  by vm_compute.
Defined.

(** X11.  The passwords of the file come first: the list is the
    passwords of the file's entries, each at its first occurrence,
    followed by the default passwords that are not among them, each at
    its first occurrence. *)
Theorem passwords_file_first c k archive_path pws :
  _get_passwords_for_file c k archive_path = inr pws ->
  let specific := entries_for c k archive_path ≫= entry_passwords k in
  pws = fold_left add_new specific []
        ++ filter (fun pwd => pwd ∉ specific)
             (fold_left add_new (default_passwords c) []).
Proof.
  intros H specific. apply _get_passwords_for_file_inr in H as ->.
  rewrite fold_left_app, fold_add_new_from. f_equal.
  apply list_filter_iff. intros pwd.
  rewrite fold_add_new_elem, elem_of_nil. tauto.
Qed.

Lemma passwords_file_first_witness :
  let specific := entries_for SampleRun.config SampleRun.quiet
                    Sample.scenario_name
                  ≫= entry_passwords SampleRun.quiet in
  [«"guess"»; «"secret"»; «"last"»]
  = fold_left add_new specific []
    ++ filter (fun pwd => pwd ∉ specific)
         (fold_left add_new (default_passwords SampleRun.config) []).
Proof.
  apply (passwords_file_first SampleRun.config SampleRun.quiet
           Sample.scenario_name).
  by vm_compute.
Defined.

(** X12.  [_get_passwords_for_file] raises when an entry of the file is
    of type 'raw' with a content that cannot be hashed -- a str that
    cannot be encoded in UTF-8, or something that is not a str -- and
    when the default passwords are not a list: nothing catches what
    [encode] or the concatenation raises. *)
Theorem passwords_raise c k archive_path :
  (exists pwd_config,
      pwd_config ∈ entries_for c k archive_path /\
      hashable pwd_config = false)
  \/ default_passwords_value c = None ->
  exists ex, _get_passwords_for_file c k archive_path = inl ex.
Proof.
  unfold _get_passwords_for_file, entries_for.
  set (configs := default [] _).
  intros [(pc & Hin & Hpc)|Hdefault].
  - assert (forall passwords,
              exists ex, collect_passwords k configs passwords = inl ex)
      as Hraise.
    { clear -Hin Hpc. induction configs as [|pc' rest IH]; intros passwords.
      - by apply elem_of_nil in Hin.
      - apply elem_of_cons in Hin as [<-|Hin].
        + destruct pc as [|content type| |]; simpl in *; try done.
          * destruct (bool_decide _); simpl in *; [|done].
            rewrite Hpc. by eexists.
          * by eexists.
        + destruct pc' as [|content type| |]; simpl; auto.
          * destruct (bool_decide _); [|by auto].
            destruct (encodable _); [by auto | by eexists].
          * by eexists. }
    destruct (Hraise []) as [ex ->]. by exists ex.
  - rewrite Hdefault.
    destruct (collect_passwords k configs []) as [ex|l]; by eexists.
Qed.

Lemma passwords_raise_witness :
  exists ex,
    _get_passwords_for_file SampleRun.surrogate_config SampleRun.quiet
      Sample.scenario_name = inl ex.
Proof.
  apply (passwords_raise SampleRun.surrogate_config SampleRun.quiet
           Sample.scenario_name).
  left. exists (Described (Some [55296]) (Some «"raw"»)).
  split; [|reflexivity].
  vm_compute. apply elem_of_cons. right. apply elem_of_cons. by left.
Defined.

(** ** Trying the passwords *)

Lemma try_one_zip k archive_path extract_dir pwd log :
  suffix_lower k archive_path = «".zip"» ->
  _try_extract_with_password k archive_path extract_dir pwd log
  = (opens k archive_path extract_dir pwd,
     log ++ [asked archive_path extract_dir pwd]).
Proof.
  intros Hzip. unfold _try_extract_with_password, _extract_zip, opens, asked.
  rewrite bool_decide_eq_true_2 by done.
  by destruct (zipfile _ _ _ _).
Qed.

Lemma try_one_other k archive_path extract_dir pwd log :
  suffix_lower k archive_path <> «".zip"» ->
  _try_extract_with_password k archive_path extract_dir pwd log = (false, log).
Proof.
  intros Hzip. unfold _try_extract_with_password.
  by rewrite bool_decide_eq_false_2.
Qed.

Lemma try_passwords_other k archive_path extract_dir pws log :
  suffix_lower k archive_path <> «".zip"» ->
  try_passwords k archive_path extract_dir pws log = (false, log).
Proof.
  intros Hzip. induction pws as [|pwd pws IH]; simpl; [done|].
  by rewrite try_one_other.
Qed.

(** The loop stops at the first password that opens the archive. *)
Lemma try_passwords_true k archive_path extract_dir pws log log' :
  try_passwords k archive_path extract_dir pws log = (true, log') ->
  suffix_lower k archive_path = «".zip"» /\
  exists before pwd after,
    pws = before ++ pwd :: after /\
    Forall (fun q => opens k archive_path extract_dir q = false) before /\
    opens k archive_path extract_dir pwd = true /\
    log' = log ++ (asked archive_path extract_dir <$> before ++ [pwd]).
Proof.
  destruct (decide (suffix_lower k archive_path = «".zip"»)) as [Hzip|Hzip];
    [|by rewrite try_passwords_other].
  intros Htry. split; [done|]. revert log Htry.
  induction pws as [|q pws IH]; intros log; simpl; [done|].
  rewrite try_one_zip by done.
  destruct (opens k archive_path extract_dir q) eqn:Hq.
  - intros [= <-]. exists [], q, pws. by repeat split.
  - intros (before & pwd & after & -> & Hbefore & Hpwd & ->)%IH.
    exists (q :: before), pwd, after. split; [done|].
    split; [by constructor|]. split; [done|].
    simpl. by rewrite <- app_assoc.
Qed.

Lemma try_passwords_false k archive_path extract_dir pws log log' :
  try_passwords k archive_path extract_dir pws log = (false, log') ->
  suffix_lower k archive_path <> «".zip"» /\ log' = log \/
  suffix_lower k archive_path = «".zip"» /\
  Forall (fun q => opens k archive_path extract_dir q = false) pws /\
  log' = log ++ (asked archive_path extract_dir <$> pws).
Proof.
  destruct (decide (suffix_lower k archive_path = «".zip"»)) as [Hzip|Hzip].
  - intros Htry. right. split; [done|]. revert log Htry.
    induction pws as [|q pws IH]; intros log; simpl.
    + intros [= <-]. by rewrite app_nil_r.
    + rewrite try_one_zip by done.
      destruct (opens k archive_path extract_dir q) eqn:Hq; [done|].
      intros [Hall ->]%IH. split; [by constructor|].
      by rewrite <- app_assoc.
  - rewrite try_passwords_other by done. intros [= <-]. by left.
Qed.

(** What [extract_file] does once the archive is there and of a
    supported format. *)
Lemma extract_file_checks c k archive_path extract_dir password s :
  path_exists_ k archive_path = false \/
  _is_supported_format c k archive_path = false ->
  extract_file c k archive_path extract_dir password s = (Returns false, s).
Proof.
  unfold extract_file. intros [-> | Hf]; [done|].
  rewrite Hf. by destruct (path_exists_ k archive_path).
Qed.

(** X13.  When [extract_file] returns [True], the archive exists, is of
    a supported format and has the suffix '.zip'; of the passwords to try
    -- the one given, else the list of the configuration -- it asked
    [zipfile] with each one before the first that opens the archive, in
    their order, then with that one, and with no other. *)
Theorem extract_file_true c k archive_path extract_dir password s s' :
  extract_file c k archive_path extract_dir password s = (Returns true, s') ->
  path_exists_ k archive_path = true /\
  _is_supported_format c k archive_path = true /\
  suffix_lower k archive_path = «".zip"» /\
  exists before pwd after,
    passwords_to_try c k archive_path password
    = inr (before ++ pwd :: after) /\
    Forall (fun q => opens k archive_path
                       (extraction_dir c extract_dir) q = false) before /\
    opens k archive_path (extraction_dir c extract_dir) pwd = true /\
    attempts s'
    = attempts s
      ++ (asked archive_path (extraction_dir c extract_dir)
            <$> before ++ [pwd]).
Proof.
  unfold extract_file, passwords_to_try.
  destruct (path_exists_ k archive_path); [|done].
  destruct (_is_supported_format c k archive_path); [|done]. cbn [negb].
  set (first :=
         match parse_archive_filename (path_name k archive_path) with
         | Some a => save_archive_info (first_save k) a (store s)
         | None => (Returns true, store s)
         end).
  destruct first as [[b|ex] disk]; [|done].
  cbv zeta.
  destruct (extract_dir_fails k (extraction_dir c extract_dir)); [done|].
  destruct (match password with
            | Some pwd => inr [pwd]
            | None => _get_passwords_for_file c k archive_path
            end) as [ex|pws]; [done|].
  destruct (try_passwords k archive_path (extraction_dir c extract_dir) pws
              (attempts s))
    as [[] log] eqn:Htry; [|done].
  apply try_passwords_true in Htry
    as (Hzip & before & pwd & after & -> & Hbefore & Hpwd & ->).
  intros Hend. split; [done|]. split; [done|]. split; [done|].
  exists before, pwd, after. split; [done|]. split; [done|]. split; [done|].
  destruct (parse_archive_filename (path_name k archive_path)) as [a|];
    [|by injection Hend as <-].
  destruct (mark_extracted (second_save k) a (extraction_dir c extract_dir)
              disk) as [[b'|ex] disk']; [|done].
  by injection Hend as <-.
Qed.

Lemma extract_file_true_witness :
  path_exists_ SampleRun.quiet Sample.scenario_name = true /\
  _is_supported_format SampleRun.config SampleRun.quiet Sample.scenario_name
  = true /\
  suffix_lower SampleRun.quiet Sample.scenario_name = «".zip"» /\
  exists before pwd after,
    passwords_to_try SampleRun.config SampleRun.quiet Sample.scenario_name None
    = inr (before ++ pwd :: after) /\
    Forall (fun q => opens SampleRun.quiet Sample.scenario_name
                       (extraction_dir SampleRun.config None) q = false)
      before /\
    opens SampleRun.quiet Sample.scenario_name
      (extraction_dir SampleRun.config None) pwd = true /\
    attempts (extract_file SampleRun.config SampleRun.quiet
                Sample.scenario_name None None SampleRun.start).2
    = attempts SampleRun.start
      ++ (asked Sample.scenario_name (extraction_dir SampleRun.config None)
            <$> before ++ [pwd]).
Proof.
  apply (extract_file_true SampleRun.config SampleRun.quiet
           Sample.scenario_name None None SampleRun.start).
  vm_compute. reflexivity.
Defined.

(** X14.  When [extract_file] returns [False], either the archive is
    missing or its format is not supported, and nothing was done; or its
    suffix is not '.zip', and [zipfile] was not asked at all; or
    [zipfile] was asked once with each password to try, in their order,
    and none opened the archive. *)
Theorem extract_file_false c k archive_path extract_dir password s s' :
  extract_file c k archive_path extract_dir password s = (Returns false, s') ->
  (path_exists_ k archive_path = false \/
   _is_supported_format c k archive_path = false) /\ s' = s
  \/ suffix_lower k archive_path <> «".zip"» /\ attempts s' = attempts s
  \/ exists pws,
       passwords_to_try c k archive_path password = inr pws /\
       Forall (fun q => opens k archive_path
                          (extraction_dir c extract_dir) q = false) pws /\
       attempts s'
       = attempts s
         ++ (asked archive_path (extraction_dir c extract_dir) <$> pws).
Proof.
  unfold extract_file, passwords_to_try.
  destruct (path_exists_ k archive_path); simpl;
    [|intros [= <-]; left; split; [by left | done]].
  destruct (_is_supported_format c k archive_path); simpl;
    [|intros [= <-]; left; split; [by right | done]].
  set (first :=
         match parse_archive_filename (path_name k archive_path) with
         | Some a => save_archive_info (first_save k) a (store s)
         | None => (Returns true, store s)
         end).
  destruct first as [[b|ex] disk]; [|done].
  cbv zeta.
  destruct (extract_dir_fails k (extraction_dir c extract_dir)); [done|].
  destruct (match password with
            | Some pwd => inr [pwd]
            | None => _get_passwords_for_file c k archive_path
            end) as [ex|pws]; [done|].
  destruct (try_passwords k archive_path (extraction_dir c extract_dir) pws
              (attempts s))
    as [[] log] eqn:Htry.
  - destruct (parse_archive_filename (path_name k archive_path)) as [a|];
      [|done].
    by destruct (mark_extracted (second_save k) a
                   (extraction_dir c extract_dir) disk) as [[b'|ex] disk'].
  - intros [= <-]. simpl.
    apply try_passwords_false in Htry as [[Hzip ->]|(Hzip & Hall & ->)].
    + right; left. done.
    + right; right. by exists pws.
Qed.

Lemma extract_file_false_witness :
  (path_exists_ SampleRun.quiet Sample.scenario_name = false \/
   _is_supported_format SampleRun.config SampleRun.quiet Sample.scenario_name
   = false) /\
  (extract_file SampleRun.config SampleRun.quiet Sample.scenario_name
     None (Some «"wrong"») SampleRun.start).2 = SampleRun.start
  \/ suffix_lower SampleRun.quiet Sample.scenario_name <> «".zip"» /\
     attempts (extract_file SampleRun.config SampleRun.quiet
                 Sample.scenario_name None (Some «"wrong"»)
                 SampleRun.start).2 = attempts SampleRun.start
  \/ exists pws,
       passwords_to_try SampleRun.config SampleRun.quiet Sample.scenario_name
         (Some «"wrong"») = inr pws /\
       Forall (fun q => opens SampleRun.quiet Sample.scenario_name
                          (extraction_dir SampleRun.config None) q = false)
         pws /\
       attempts (extract_file SampleRun.config SampleRun.quiet
                   Sample.scenario_name None (Some «"wrong"»)
                   SampleRun.start).2
       = attempts SampleRun.start
         ++ (asked Sample.scenario_name (extraction_dir SampleRun.config None)
               <$> pws).
Proof.
  apply (extract_file_false SampleRun.config SampleRun.quiet
           Sample.scenario_name None (Some «"wrong"») SampleRun.start).
  vm_compute. reflexivity.
Defined.

(** ** The store after an extraction *)

Lemma parsed_stored e name a :
  parse_archive_filename name = Some a ->
  filename a = name /\
  exists d written,
    to_dict a = Some d /\
    stored e a = Some (JObj written) /\
    dict_get «"extracted"» written = None.
Proof.
  intros (Hname & [dt Hdt] & _)%parse_archive_filename_exact.
  split; [done|]. unfold stored, to_dict, date_of. rewrite Hdt.
  eexists _, _. split; [done|]. by split.
Qed.

(** A dict put at the place a record of the same name was just given
    takes that place. *)
Lemma place_over name items at_ record d :
  scan name items 0 = inr at_ ->
  names name record = inr true ->
  exists j,
    scan name (place items at_ record) 0 = inr (Some j) /\
    place (place items at_ record) (Some j) d = place items at_ d.
Proof.
  intros Hscan Hnames.
  destruct (scan_place _ _ _ _ Hscan Hnames) as (j & Hfound & _ & Hat).
  exists j. split; [done|].
  destruct at_ as [i|]; simpl in *; subst.
  - rewrite list_insert_insert. by rewrite decide_True.
  - rewrite insert_app_r_alt by done. by rewrite Nat.sub_diag.
Qed.

Lemma first_save_ok e a disk at_ record :
  unfailing e -> listed disk ->
  scan (filename a) (entries disk) 0 = inr at_ ->
  stored e a = Some record ->
  save_archive_info e a disk
  = (Returns true, Document (JArr (place (entries disk) at_ record))).
Proof.
  intros (Hmk & Hr & Hw) Hdisk Hscan Hst.
  apply save_archive_info_ok; try done.
  apply load_existing_list; [done|].
  destruct Hdisk as [->|[->|[items ->]]]; [left|left|right]; eauto.
Qed.

(** X15.  A successful extraction of an archive whose name parses, when
    neither save meets a failure and the store reads as a list that can
    be scanned for the name: the store is left as the old list with the
    extraction dict -- 'extracted' true, the directory used -- put over
    the first record of the name, or added at the end; what the first
    save had written for the archive is gone. *)
Theorem extract_file_records c k archive_path extract_dir password s s' a at_ :
  parse_archive_filename (path_name k archive_path) = Some a ->
  unfailing (first_save k) -> unfailing (second_save k) ->
  listed (store s) ->
  scan (filename a) (entries (store s)) 0 = inr at_ ->
  extract_file c k archive_path extract_dir password s = (Returns true, s') ->
  exists d,
    extracted_dict (second_save k) a (extraction_dir c extract_dir) = Some d /\
    dict_get «"extracted"» d = Some (JBool true) /\
    dict_get «"extract_dir"» d
    = Some (JStr (extraction_dir c extract_dir)) /\
    store s' = Document (JArr (place (entries (store s)) at_ (JObj d))).
Proof.
  intros Hparse Hfirst (Hmk & Hr & Hw) Hdisk Hscan.
  destruct (parsed_stored (first_save k) _ _ Hparse)
    as (Hname & fields & written & Hdict & Hst & _).
  destruct (extracted_dict_some (second_save k) a
              (extraction_dir c extract_dir)) as [d Hd]; [by eexists|].
  destruct (extracted_dict_keys _ _ _ _ Hd) as (Hex & Hdir & _ & Hfile & _).
  destruct (place_over _ _ _ _ (JObj d) Hscan (stored_names _ _ _ Hst))
    as (j & Hfound & Hover).
  unfold extract_file. rewrite Hparse.
  rewrite (first_save_ok _ _ _ _ _ Hfirst Hdisk Hscan Hst).
  destruct (path_exists_ k archive_path); [|done].
  destruct (_is_supported_format c k archive_path); [|done]. cbn [negb].
  cbv zeta.
  destruct (extract_dir_fails k (extraction_dir c extract_dir)); [done|].
  destruct (match password with
            | Some pwd => inr [pwd]
            | None => _get_passwords_for_file c k archive_path
            end) as [ex|pws]; [done|].
  destruct (try_passwords k archive_path (extraction_dir c extract_dir) pws
              (attempts s)) as [[] log]; [|done].
  unfold mark_extracted. rewrite Hd.
  rewrite (_save_archive_info_dict_ok (second_save k) d (filename a) _ _
             (Some j)) by (try done; by apply load_existing_document).
  rewrite Hover. intros [= <-]. by exists d.
Qed.

Lemma extract_file_records_witness :
  exists d,
    extracted_dict (second_save SampleRun.quiet) Sample.archive
      (extraction_dir SampleRun.config (Some «"out"»)) = Some d /\
    dict_get «"extracted"» d = Some (JBool true) /\
    dict_get «"extract_dir"» d
    = Some (JStr (extraction_dir SampleRun.config (Some «"out"»))) /\
    store (extract_file SampleRun.config SampleRun.quiet Sample.scenario_name
             (Some «"out"») None SampleRun.start).2
    = Document (JArr (place (entries (store SampleRun.start)) None
                        (JObj d))).
Proof.
  apply (extract_file_records SampleRun.config SampleRun.quiet
           Sample.scenario_name (Some «"out"») None SampleRun.start _
           Sample.archive None).
  - vm_compute. reflexivity.
  - repeat split.
  - repeat split.
  - right; right. eexists. reflexivity.
  - vm_compute. reflexivity.
  - vm_compute. reflexivity.
Defined.

(** X16.  An extraction that fails after the checks still records the
    archive: when the name parses, the first save meets no failure and
    the store reads as a list that can be scanned, the store is left as
    the old list with the record of the archive -- which has no
    'extracted' key -- over the first record of the name, so that the
    mark of an earlier extraction is lost. *)
Theorem extract_file_failure_records c k archive_path extract_dir password
    s s' a at_ :
  path_exists_ k archive_path = true ->
  _is_supported_format c k archive_path = true ->
  parse_archive_filename (path_name k archive_path) = Some a ->
  unfailing (first_save k) ->
  listed (store s) ->
  scan (filename a) (entries (store s)) 0 = inr at_ ->
  extract_file c k archive_path extract_dir password s = (Returns false, s') ->
  exists written,
    stored (first_save k) a = Some (JObj written) /\
    dict_get «"extracted"» written = None /\
    store s' = Document (JArr (place (entries (store s)) at_ (JObj written))).
Proof.
  intros Hexists Hformat Hparse Hfirst Hdisk Hscan.
  destruct (parsed_stored (first_save k) _ _ Hparse)
    as (Hname & fields & written & Hdict & Hst & Hnone).
  unfold extract_file. rewrite Hexists, Hformat, Hparse. cbn [negb].
  rewrite (first_save_ok _ _ _ _ _ Hfirst Hdisk Hscan Hst). cbv zeta.
  destruct (extract_dir_fails k (extraction_dir c extract_dir)); [done|].
  destruct (match password with
            | Some pwd => inr [pwd]
            | None => _get_passwords_for_file c k archive_path
            end) as [ex|pws]; [done|].
  destruct (try_passwords k archive_path (extraction_dir c extract_dir) pws
              (attempts s)) as [[] log].
  - by destruct (mark_extracted (second_save k) a
                   (extraction_dir c extract_dir) _) as [[b'|ex] disk'].
  - intros [= <-]. by exists written.
Qed.

Lemma extract_file_failure_records_witness :
  exists written,
    stored (first_save SampleRun.quiet) Sample.archive
    = Some (JObj written) /\
    dict_get «"extracted"» written = None /\
    store (extract_file SampleRun.config SampleRun.quiet Sample.scenario_name
             None (Some «"wrong"») {| store := Sample.listed_twice; attempts := [] |}).2
    = Document (JArr (place (entries (store {| store := Sample.listed_twice; attempts := [] |})) (Some 0%nat)
                        (JObj written))).
Proof.
  apply (extract_file_failure_records SampleRun.config SampleRun.quiet
           Sample.scenario_name None (Some «"wrong"») {| store := Sample.listed_twice; attempts := [] |} _
           Sample.archive (Some 0%nat)).
  - reflexivity.
  - vm_compute. reflexivity.
  - vm_compute. reflexivity.
  - repeat split.
  - right; right. eexists. reflexivity.
  - vm_compute. reflexivity.
  - vm_compute. reflexivity.
Defined.

(** X17.  For an archive whose name does not parse, [extract_file]
    leaves the store as it was, whatever its outcome: found or not,
    extracted or not, or an exception raised. *)
Theorem extract_file_unparsed c k archive_path extract_dir password s :
  parse_archive_filename (path_name k archive_path) = None ->
  store (extract_file c k archive_path extract_dir password s).2 = store s.
Proof.
  intros Hparse. unfold extract_file. rewrite Hparse.
  destruct (path_exists_ k archive_path); [|done].
  destruct (_is_supported_format c k archive_path); [|done]. cbn [negb].
  cbv zeta.
  destruct (extract_dir_fails k (extraction_dir c extract_dir)); [done|].
  destruct (match password with
            | Some pwd => inr [pwd]
            | None => _get_passwords_for_file c k archive_path
            end) as [ex|pws]; [done|].
  by destruct (try_passwords k archive_path (extraction_dir c extract_dir) pws
                 (attempts s)) as [[] log].
Qed.

Lemma extract_file_unparsed_witness :
  store (extract_file SampleRun.config SampleRun.quiet
           «"not_a_valid_archive.zip"» None None SampleRun.start).2
  = store SampleRun.start.
Proof.
  apply (extract_file_unparsed SampleRun.config SampleRun.quiet
           «"not_a_valid_archive.zip"» None None SampleRun.start).
  vm_compute. reflexivity.
Defined.

(** X18.  With no password given, no entry for the file and no default
    password, [extract_file] never returns [True] and never asks
    [zipfile]: an archive that needs no password is not extracted
    either. *)
Theorem extract_file_no_passwords c k archive_path extract_dir s r s' :
  entries_for c k archive_path = [] ->
  default_passwords c = [] ->
  extract_file c k archive_path extract_dir None s = (r, s') ->
  r <> Returns true /\ attempts s' = attempts s.
Proof.
  intros Hnone Hdefault. unfold extract_file, _get_passwords_for_file.
  fold (entries_for c k archive_path). rewrite Hnone.
  unfold default_passwords in Hdefault. simpl.
  destruct (path_exists_ k archive_path); [|by intros [= <- <-]].
  destruct (_is_supported_format c k archive_path); [|by intros [= <- <-]].
  cbn [negb].
  destruct (match parse_archive_filename (path_name k archive_path) with
            | Some a => save_archive_info (first_save k) a (store s)
            | None => (Returns true, store s)
            end) as [[b|ex] disk]; [|by intros [= <- <-]].
  destruct (extract_dir_fails k (extraction_dir c extract_dir));
    [by intros [= <- <-]|].
  destruct (default_passwords_value c) as [l|]; simpl in *;
    [subst l; simpl|]; by intros [= <- <-].
Qed.

Lemma extract_file_no_passwords_witness :
  (extract_file SampleRun.bare_config SampleRun.quiet Sample.scenario_name
     None None SampleRun.start).1 <> Returns true /\
  attempts (extract_file SampleRun.bare_config SampleRun.quiet
              Sample.scenario_name None None SampleRun.start).2
  = attempts SampleRun.start.
Proof.
  apply (extract_file_no_passwords SampleRun.bare_config SampleRun.quiet
           Sample.scenario_name None SampleRun.start).
  - reflexivity.
  - reflexivity.
  - vm_compute. reflexivity.
Defined.

(** ** The tasks of the configuration *)

Lemma try_passwords_log k archive_path extract_dir pws log :
  exists tried,
    (try_passwords k archive_path extract_dir pws log).2
    = log ++ (asked archive_path extract_dir <$> tried).
Proof.
  destruct (try_passwords k archive_path extract_dir pws log)
    as [[] log'] eqn:Htry; simpl.
  - apply try_passwords_true in Htry
      as (_ & before & pwd & after & _ & _ & _ & ->).
    by exists (before ++ [pwd]).
  - apply try_passwords_false in Htry as [[_ ->]|(_ & _ & ->)].
    + exists []. by rewrite app_nil_r.
    + by exists pws.
Qed.

(** Whatever its outcome, [extract_file] asks [zipfile] about its own
    archive and directory only. *)
Lemma extract_file_log c k archive_path extract_dir password s :
  exists tried,
    attempts (extract_file c k archive_path extract_dir password s).2
    = attempts s
      ++ (asked archive_path (extraction_dir c extract_dir) <$> tried).
Proof.
  unfold extract_file.
  assert (exists tried : list str,
            attempts s
            = attempts s
              ++ (asked archive_path (extraction_dir c extract_dir)
                    <$> tried)) as Hsame.
  { exists []. by rewrite app_nil_r. }
  destruct (path_exists_ k archive_path); [|done].
  destruct (_is_supported_format c k archive_path); [|done]. cbn [negb].
  destruct (match parse_archive_filename (path_name k archive_path) with
            | Some a => save_archive_info (first_save k) a (store s)
            | None => (Returns true, store s)
            end) as [[b|ex] disk]; [|done].
  cbv zeta.
  destruct (extract_dir_fails k (extraction_dir c extract_dir)); [done|].
  destruct (match password with
            | Some pwd => inr [pwd]
            | None => _get_passwords_for_file c k archive_path
            end) as [ex|pws]; [done|].
  destruct (try_passwords_log k archive_path (extraction_dir c extract_dir)
              pws (attempts s)) as [tried Htried].
  exists tried.
  destruct (try_passwords k archive_path (extraction_dir c extract_dir) pws
              (attempts s)) as [[] log]; [|done].
  destruct (parse_archive_filename (path_name k archive_path)) as [a|];
    [|done].
  by destruct (mark_extracted (second_save k) a
                 (extraction_dir c extract_dir) disk) as [[b'|ex] disk'].
Qed.

Lemma run_tasks_results c calls i tasks results0 s results s' :
  run_tasks c calls i tasks results0 s = (inr results, s') ->
  forall archive_path,
    is_Some (results !! archive_path) <->
    is_Some (results0 !! archive_path) \/ archive_path ∈ task_paths tasks.
Proof.
  revert i results0 s.
  induction tasks as [|task tasks IH]; intros i results0 s; simpl.
  - intros [= <- _] p. rewrite elem_of_nil. tauto.
  - destruct (task_archive_path task) as [[|ch path]|]; simpl.
    + apply IH.
    + destruct (extract_file c (calls i) (ch :: path) (task_extract_dir task)
                  _ s) as [[success|ex] s1]; [|done].
      intros Hrun p. rewrite (IH _ _ _ Hrun p), elem_of_cons.
      rewrite lookup_insert_is_Some.
      destruct (decide (ch :: path = p)) as [<-|Hne]; [tauto|].
      split; [intros [[?|[_ ?]]|?] | intros [?|[?|?]]]; try tauto.
      by subst.
    + apply IH.
Qed.

Lemma of_task_cons c task tasks request :
  of_task c tasks request -> of_task c (task :: tasks) request.
Proof.
  intros (t & p & Hin & Hrest). exists t, p. split; [|done].
  apply elem_of_cons. by right.
Qed.

Lemma run_tasks_log c calls i tasks results0 s :
  exists new,
    attempts (run_tasks c calls i tasks results0 s).2 = attempts s ++ new /\
    Forall (of_task c tasks) new.
Proof.
  revert i results0 s.
  induction tasks as [|task tasks IH]; intros i results0 s; simpl.
  - exists []. by rewrite app_nil_r.
  - assert (forall j r t,
              exists new,
                attempts (run_tasks c calls j tasks r t).2
                = attempts t ++ new /\
                Forall (of_task c (task :: tasks)) new) as IH'.
    { intros j r t. destruct (IH j r t) as (new & Hnew & Hall).
      exists new. split; [done|].
      eapply Forall_impl; [exact Hall|]. apply of_task_cons. }
    destruct (task_archive_path task) as [[|ch path]|] eqn:Hpath; simpl;
      [apply IH'| |apply IH'].
    set (password := match task_password task with
                     | Some [] => None
                     | password => password
                     end).
    destruct (extract_file_log c (calls i) (ch :: path)
                (task_extract_dir task) password s) as [tried Htried].
    assert (Forall (of_task c (task :: tasks))
              (asked (ch :: path) (extraction_dir c (task_extract_dir task))
                 <$> tried)) as Hall.
    { apply Forall_fmap, Forall_forall. intros pwd _.
      exists task, (ch :: path). split; [apply elem_of_cons; by left|].
      by split. }
    destruct (extract_file c (calls i) (ch :: path) (task_extract_dir task)
                password s) as [[success|ex] s1]; simpl in *.
    + destruct (IH' (S i) (<[ch :: path := success]> results0) s1)
        as (new & Hnew & Hall').
      exists ((asked (ch :: path) (extraction_dir c (task_extract_dir task))
                 <$> tried) ++ new).
      split; [|by apply Forall_app].
      etrans; [exact Hnew|]. rewrite Htried. by rewrite app_assoc.
    + eexists. split; [exact Htried | done].
Qed.

(** X19.  The results of [extract_from_config] have exactly one entry
    for each archive path of the tasks: a task without a path, or with an
    empty one, gives none, and the tasks of one path share theirs. *)
Theorem extract_from_config_results c calls s results s' :
  extract_from_config c calls s = (inr results, s') ->
  forall archive_path,
    is_Some (results !! archive_path) <->
    archive_path ∈ task_paths (extract_tasks c).
Proof.
  intros Hrun p. rewrite (run_tasks_results _ _ _ _ _ _ _ _ Hrun p).
  rewrite lookup_empty. split; [intros [[? [=]]|?]; done | by right].
Qed.

Lemma extract_from_config_results_witness :
  is_Some (({[ Sample.scenario_name := false ]} : gmap str bool)
             !! Sample.scenario_name) <->
  Sample.scenario_name ∈ task_paths (extract_tasks SampleRun.config).
Proof.
  apply (extract_from_config_results SampleRun.config
           (fun _ => SampleRun.quiet) SampleRun.start
           {[ Sample.scenario_name := false ]}
           (extract_from_config SampleRun.config (fun _ => SampleRun.quiet)
              SampleRun.start).2).
  vm_compute. reflexivity.
Defined.

(** X20.  Whatever its outcome, [extract_from_config] only adds to what
    [zipfile] was asked, and asks it about nothing but the archives of
    the tasks, each to be extracted into the directory of its task. *)
Theorem extract_from_config_requests c calls s :
  exists new,
    attempts (extract_from_config c calls s).2 = attempts s ++ new /\
    Forall (of_task c (extract_tasks c)) new.
Proof. apply run_tasks_log. Qed.

(** ** The names the parser accepts *)

(** X21.  [parse_archive_filename] returns a record exactly for the
    names made of 'chalaoshi_csv', eight digits that [strptime] accepts,
    '_', digits, '_', digits, '_', characters other than '_', '_',
    characters other than a dot, '.zip' and then nothing or one newline
    -- the digits being those of [\d], the runs not empty; the record
    holds the name as it was given and the five parts. *)
Theorem parse_archive_filename_accepts name info :
  parse_archive_filename name = Some info <->
  filename info = name /\
  is_Some (strptime (date_str info)) /\
  exists rest,
    accepted name (date_str info) (post_id info) (floor_number info)
      (author_id info) (encryption_method info) rest.
Proof. exact (parse_archive_filename_exact name info). Qed.
